(** * Minesweeper knowledge engine (ai/2020/x/projects/1/minesweeper/minesweeper.py)

    A shallow embedding of the three classes of [minesweeper.py]:
    [Minesweeper] (the hidden board), [Sentence] (one constraint) and
    [MinesweeperAI] (the knowledge base with its inference passes), followed
    by the properties of the inference engine.

    Conventions of the embedding.
    - Python integers are [Z]; a cell is a pair [(row, col)] of integers.
    - A Python [set] of cells is a [gset (Z * Z)]; [len] is [size] and a
      [for] loop over a set folds over [elements].  Every loop over a set in
      the source applies marking operations that commute, so the visiting
      order does not influence the state that is reached.
    - [self.knowledge] is a Python list of mutable [Sentence] objects.  The
      loops over it use the list iterator, which keeps an index and stops as
      soon as the index is no longer smaller than the current length; the
      embedding iterates by index in the same way, so that removals and
      appends performed while iterating have the effect they have in
      Python.
    - Object identity ([sentence1 is sentence2]) is modelled by an
      allocation number [oid] stored in each sentence; [__eq__] compares
      the cell set and the count only.
    - [add_knowledge] contains a loop over a list that grows while it is
      visited; the embedding bounds its iterations by a number [fuel] and
      returns [None] when the bound is reached.  The result does not depend
      on the bound ([add_knowledge_result_unique]), and a call that returns
      [None] for every bound is a call that does not return.
    - [set.pop()] returns an element of its choice: the moves are defined
      for any such choice (a [SetPop]).
    - The board of [Minesweeper] is any list of rows.  [Game] adds the
      constructor, which places the mines; the numbers that
      [random.randrange] returns are an input of it.
    - [print] only writes text and is left out.  The engine is modelled
      without the calls of [log_knowledge] and [log_data] that end
      [add_knowledge]; [Log] models the tables the [log_*] methods build and
      print. *)

From stdpp Require Import gmap list.

#[local] Open Scope Z_scope.

Abbreviation Cell := (Z * Z)%type.

(** [range(a, b)] *)
Definition range (a b : Z) : list Z := seqZ a (b - a).

(** [for x in s: st = body(x, st)] for a set [s]. *)
Definition for_set {A : Type} (s : gset Cell) (body : Cell → A → A) (st : A) : A :=
  foldl (λ acc c, body c acc) st (elements s).

(** [cells = set()
     for i in rows:
         for j in cols:
             if keep((i, j)): cells.add((i, j))] *)
Definition collect_cells (rows cols : list Z) (keep : Cell → bool) : gset Cell :=
  foldl (λ cells i,
    foldl (λ cells j, if keep (i, j) then cells ∪ {[(i, j)]} else cells) cells cols)
  ∅ rows.

(** [set.pop()] removes and returns an arbitrary element of a non-empty
    set; which one is left to the implementation.  The engine only calls
    it on sets it has just checked to be non-empty. *)
Record SetPop := {
  set_pop : gset Cell → Cell;
  set_pop_elem : ∀ s : gset Cell, s ≠ ∅ → set_pop s ∈ s;
}.

(** ** class Minesweeper *)
Module Minesweeper.

Record t := Build {
  height : Z;
  width : Z;
  board : list (list bool);
}.

(** [self.board[i][j]] for indices inside the board.  Outside of it the
    value is not the one of Python: [False] stands for the [IndexError] of an
    index past the end, and a negative index reads row or column 0 where
    Python counts from the end.  [nearby_mines] checks the bounds before it
    reads the board, and the properties below read it at cells of the grid
    only. *)
Definition board_at (g : t) (i j : Z) : bool :=
  match board g !! Z.to_nat i with
  | Some row => default false (row !! Z.to_nat j)
  | None => false
  end.

Definition is_mine (g : t) (cell : Cell) : bool :=
  board_at g cell.1 cell.2.

Definition nearby_mines (g : t) (cell : Cell) : Z :=
  foldl (λ count i,
    foldl (λ count j,
      if bool_decide ((i, j) = cell) then count
      else if bool_decide (0 ≤ i < height g) && bool_decide (0 ≤ j < width g)
      then (if board_at g i j then count + 1 else count)
      else count)
    count (range (cell.2 - 1) (cell.2 + 2)))
  0 (range (cell.1 - 1) (cell.1 + 2)).

End Minesweeper.

(** ** class Minesweeper: the constructor and [won]

    [Game.t] is a [Minesweeper] object with the two sets the constructor
    adds to the board: [self.mines] and [self.mines_found].  The numbers
    [random.randrange] returns are an input of the constructor: [draws]
    lists the pairs [(i, j)] drawn by the successive iterations of its
    [while] loop.  [randrange(n)] raises [ValueError] when [n] is not
    positive. *)
Module Game.

Record t := Build {
  grid : Minesweeper.t;
  mines : gset Cell;
  mines_found : gset Cell;
}.

(** [self.board = []
     for i in range(self.height):
         row = []
         for j in range(self.width): row.append(False)
         self.board.append(row)] *)
Definition empty_board (height width : Z) : list (list bool) :=
  foldl (λ board _, board ++ [foldl (λ row _, row ++ [false]) [] (range 0 width)])
    [] (range 0 height).

(** [self.board[i][j] = True], for [i] and [j] that [randrange] returned. *)
Definition set_mine (i j : Z) (board : list (list bool)) : list (list bool) :=
  match board !! Z.to_nat i with
  | Some row => <[Z.to_nat i := <[Z.to_nat j := true]> row]> board
  | None => board
  end.

(** [self.mines.add((i, j)); self.board[i][j] = True] *)
Definition add_mine (i j : Z) (self : t) : t :=
  {| grid := Minesweeper.Build (Minesweeper.height (grid self)) (Minesweeper.width (grid self))
               (set_mine i j (Minesweeper.board (grid self)));
     mines := mines self ∪ {[(i, j)]};
     mines_found := mines_found self |}.

(** What the constructor has done once the draws are used up. *)
Inductive outcome :=
  | Returned (self : t)   (* the constructor has returned *)
  | Raised                (* [randrange] has raised [ValueError] *)
  | Running.              (* the loop asks for another draw *)

(** [while len(self.mines) != mines:
         i = random.randrange(height)
         j = random.randrange(width)
         if not self.board[i][j]:
             self.mines.add((i, j))
             self.board[i][j] = True] *)
Fixpoint place_mines (draws : list Cell) (count : Z) (self : t) : outcome :=
  if bool_decide (Z.of_nat (size (mines self)) ≠ count)
  then
    if bool_decide (0 < Minesweeper.height (grid self) ∧ 0 < Minesweeper.width (grid self))
    then
      match draws with
      | [] => Running
      | (i, j) :: draws' =>
          if negb (Minesweeper.board_at (grid self) i j)
          then place_mines draws' count (add_mine i j self)
          else place_mines draws' count self
      end
    else Raised
  else Returned self.

(** [__init__] *)
Definition init (height width count : Z) (draws : list Cell) : outcome :=
  place_mines draws count
    {| grid := Minesweeper.Build height width (empty_board height width);
       mines := ∅; mines_found := ∅ |}.

Definition won (self : t) : bool := bool_decide (mines_found self = mines self).

End Game.

(** ** class Sentence *)
Module Sentence.

Record t := Build {
  oid : nat;
  cells : gset Cell;
  count : Z;
}.

(** [__eq__] *)
Definition eqb (self other : t) : bool :=
  bool_decide (cells self = cells other) && bool_decide (count self = count other).

Definition known_mines (self : t) : gset Cell :=
  if bool_decide (count self = Z.of_nat (size (cells self))) && bool_decide (count self > 0)
  then cells self
  else ∅.

Definition known_safes (self : t) : gset Cell :=
  if bool_decide (count self = 0) then cells self else ∅.

Definition mark_mine (cell : Cell) (self : t) : t :=
  if bool_decide (cell ∉ cells self)
  then {| oid := oid self; cells := cells self ∪ {[cell]}; count := count self + 1 |}
  else self.

Definition mark_safe (cell : Cell) (self : t) : t :=
  if bool_decide (cell ∈ cells self)
  then {| oid := oid self; cells := cells self ∖ {[cell]}; count := count self |}
  else self.

End Sentence.

(** ** class MinesweeperAI *)
Module MinesweeperAI.

Record t := Build {
  height : Z;
  width : Z;
  moves_made : gset Cell;
  mines : gset Cell;
  safes : gset Cell;
  knowledge : list Sentence.t;
  next_oid : nat;
}.

(** [__init__] *)
Definition init (height width : Z) : t :=
  {| height := height; width := width; moves_made := ∅; mines := ∅;
     safes := ∅; knowledge := []; next_oid := 0 |}.

Definition set_knowledge (k : list Sentence.t) (self : t) : t :=
  {| height := height self; width := width self; moves_made := moves_made self;
     mines := mines self; safes := safes self; knowledge := k;
     next_oid := next_oid self |}.

Definition mark_mine (cell : Cell) (self : t) : t :=
  {| height := height self; width := width self; moves_made := moves_made self;
     mines := mines self ∪ {[cell]}; safes := safes self;
     knowledge := Sentence.mark_mine cell <$> knowledge self;
     next_oid := next_oid self |}.

Definition mark_safe (cell : Cell) (self : t) : t :=
  {| height := height self; width := width self; moves_made := moves_made self;
     mines := mines self; safes := safes self ∪ {[cell]};
     knowledge := Sentence.mark_safe cell <$> knowledge self;
     next_oid := next_oid self |}.

Definition get_surrounding_cells (self : t) (cell : Cell) : gset Cell :=
  let row := cell.1 in
  let col := cell.2 in
  let row1 := if bool_decide (row > 0) then row - 1 else 0 in
  let row2 := if bool_decide (row < height self - 1) then row + 1 else height self - 1 in
  let col1 := if bool_decide (col > 0) then col - 1 else 0 in
  let col2 := if bool_decide (col < width self - 1) then col + 1 else width self - 1 in
  collect_cells (range row1 (row2 + 1)) (range col1 (col2 + 1))
    (λ surrounding_cell,
       bool_decide (surrounding_cell ≠ cell) && bool_decide (surrounding_cell ∉ safes self)).

(** [Sentence(cells, count)]: a new object. *)
Definition new_sentence (cells : gset Cell) (count : Z) (self : t) : Sentence.t * t :=
  ({| Sentence.oid := next_oid self; Sentence.cells := cells; Sentence.count := count |},
   {| height := height self; width := width self; moves_made := moves_made self;
      mines := mines self; safes := safes self; knowledge := knowledge self;
      next_oid := S (next_oid self) |}).

Definition add_move (cell : Cell) (self : t) : t :=
  {| height := height self; width := width self;
     moves_made := moves_made self ∪ {[cell]};
     mines := mines self; safes := safes self; knowledge := knowledge self;
     next_oid := next_oid self |}.

(** [self.knowledge.remove(x)]: drops the first entry equal to [x]. *)
Fixpoint list_remove (x : Sentence.t) (l : list Sentence.t) : list Sentence.t :=
  match l with
  | [] => []
  | y :: l' => if Sentence.eqb y x then l' else y :: list_remove x l'
  end.

(** [x in self.knowledge] *)
Definition list_contains (x : Sentence.t) (l : list Sentence.t) : bool :=
  existsb (λ y, Sentence.eqb y x) l.

(** [for sentence in self.knowledge:
       for cell1 in sentence.known_mines().copy(): self.mark_mine(cell1)]
    from list index [i] on; [n] bounds the number of entries still to
    visit (the list keeps its length in this loop). *)
Fixpoint mark_known_mines_from (n i : nat) (self : t) : t :=
  match n with
  | O => self
  | S n' =>
      match knowledge self !! i with
      | None => self
      | Some sentence =>
          mark_known_mines_from n' (S i)
            (for_set (Sentence.known_mines sentence) mark_mine self)
      end
  end.

Definition mark_known_mines (self : t) : t :=
  mark_known_mines_from (length (knowledge self)) 0 self.

Fixpoint mark_known_safes_from (n i : nat) (self : t) : t :=
  match n with
  | O => self
  | S n' =>
      match knowledge self !! i with
      | None => self
      | Some sentence =>
          mark_known_safes_from n' (S i)
            (for_set (Sentence.known_safes sentence) mark_safe self)
      end
  end.

Definition mark_known_safes (self : t) : t :=
  mark_known_safes_from (length (knowledge self)) 0 self.

(** The body of the inner loop of step 5 for one [sentence2]. *)
Definition infer_step (sentence1 sentence2 : Sentence.t) (self : t) : t :=
  if bool_decide (Sentence.oid sentence1 = Sentence.oid sentence2) then self
  else if Sentence.eqb sentence1 sentence2
  then set_knowledge (list_remove sentence2 (knowledge self)) self
  else if bool_decide (Sentence.cells sentence1 ⊆ Sentence.cells sentence2)
  then
    let '(new_knowledge, self') :=
      new_sentence (Sentence.cells sentence2 ∖ Sentence.cells sentence1)
                   (Sentence.count sentence2 - Sentence.count sentence1) self in
    if negb (list_contains new_knowledge (knowledge self'))
    then set_knowledge (knowledge self' ++ [new_knowledge]) self'
    else self'
  else self.

(** [for sentence2 in self.knowledge: ...] from index [j] on. The list
    grows and shrinks during the loop; [fuel] bounds the number of
    iterations and [None] means that the bound was reached. *)
Fixpoint infer_inner (fuel : nat) (sentence1 : Sentence.t) (j : nat) (self : t) : option t :=
  match fuel with
  | O => None
  | S fuel' =>
      match knowledge self !! j with
      | None => Some self
      | Some sentence2 =>
          infer_inner fuel' sentence1 (S j) (infer_step sentence1 sentence2 self)
      end
  end.

(** [for sentence1 in self.knowledge: for sentence2 in self.knowledge: ...]
    from index [i] on. *)
Fixpoint infer_outer (fuel : nat) (i : nat) (self : t) : option t :=
  match fuel with
  | O => None
  | S fuel' =>
      match knowledge self !! i with
      | None => Some self
      | Some sentence1 =>
          match infer_inner fuel' sentence1 0 self with
          | None => None
          | Some self' => infer_outer fuel' (S i) self'
          end
      end
  end.

(** Steps 1 to 4 of [add_knowledge] (lines 283-304). *)
Definition add_knowledge_head (cell : Cell) (count : Z) (self : t) : t :=
  let surrounding_cells := get_surrounding_cells self cell in
  let self := add_move cell self in
  let self := mark_safe cell self in
  let '(sentence, self) := new_sentence surrounding_cells count self in
  let self := set_knowledge (knowledge self ++ [sentence]) self in
  let self := mark_known_mines self in
  let self := mark_known_safes self in
  if bool_decide (count = 0)
  then for_set surrounding_cells mark_safe self
  else self.

(** The two marking loops that follow step 5 (lines 321-327). *)
Definition add_knowledge_tail (self : t) : t :=
  mark_known_safes (mark_known_mines self).

Definition add_knowledge (fuel : nat) (cell : Cell) (count : Z) (self : t) : option t :=
  match infer_outer fuel 0 (add_knowledge_head cell count self) with
  | None => None
  | Some self' => Some (add_knowledge_tail self')
  end.

(** [make_safe_move] returns the move; the engine is returned next to it
    to state what the call does to [self] (it works on the local set
    [moves] only). *)
Definition make_safe_move (pop : SetPop) (self : t) : option Cell * t :=
  let moves := safes self ∖ moves_made self in
  let move := if bool_decide (0 < size moves)%nat then Some (set_pop pop moves) else None in
  (move, self).

Definition make_random_move (pop : SetPop) (self : t) : option Cell * t :=
  let cells :=
    collect_cells (range 0 (height self)) (range 0 (width self))
      (λ cell, bool_decide (cell ∉ moves_made self) && bool_decide (cell ∉ mines self)) in
  if bool_decide (size cells = 0%nat) then (None, self)
  else (Some (set_pop pop cells), self).

(** A sequence of [add_knowledge] calls, one for each [(cell, count)]. *)
Fixpoint add_knowledge_seq (fuel : nat) (obs : list (Cell * Z)) (self : t) : option t :=
  match obs with
  | [] => Some self
  | (cell, count) :: obs' =>
      match add_knowledge fuel cell count self with
      | None => None
      | Some self' => add_knowledge_seq fuel obs' self'
      end
  end.

(** [n] consecutive calls of [make_random_move]; the moves they return. *)
Fixpoint random_moves (pop : SetPop) (n : nat) (self : t) : list (option Cell) :=
  match n with
  | O => []
  | S n' =>
      let '(move, self') := make_random_move pop self in
      move :: random_moves pop n' self'
  end.

End MinesweeperAI.

(** ** The tables that the [log_*] methods print

    Each [log_*] method fills a list of rows, [grid], and hands it to
    [log_minefield], which prints its entries.  An entry is ['-'], a count,
    ["S"], ["M"], ["?"] or the symbol given to [log_cells].  Indexing a list
    raises [IndexError] when the index is out of range: [None] below. *)
Module Log.

Inductive entry :=
  | Blank                  (* '-' *)
  | Number (count : Z)     (* sentence.count *)
  | KnownSafe              (* "S" *)
  | KnownMine              (* "M" *)
  | Asked                  (* "?" *)
  | Symbol.                (* the argument [symbol] of log_cells *)

Definition is_blank (e : entry) : bool :=
  match e with Blank => true | _ => false end.

(** [l[i]]: a negative index counts from the end of the list. *)
Definition index {A : Type} (l : list A) (i : Z) : option A :=
  if bool_decide (0 ≤ i) then l !! Z.to_nat i
  else if bool_decide (- Z.of_nat (length l) ≤ i) then l !! Z.to_nat (Z.of_nat (length l) + i)
  else None.

(** [l[i] = v] *)
Definition store {A : Type} (l : list A) (i : Z) (v : A) : option (list A) :=
  if bool_decide (0 ≤ i < Z.of_nat (length l)) then Some (<[Z.to_nat i := v]> l)
  else if bool_decide (- Z.of_nat (length l) ≤ i < 0)
       then Some (<[Z.to_nat (Z.of_nat (length l) + i) := v]> l)
  else None.

(** [grid[y][x]] *)
Definition get (grid : list (list entry)) (y x : Z) : option entry :=
  row ← index grid y; index row x.

(** [grid[y][x] = e]; the rows of a grid are distinct lists. *)
Definition put (grid : list (list entry)) (y x : Z) (e : entry) : option (list (list entry)) :=
  row ← index grid y; row' ← store row x e; store grid y row'.

(** [[['-'] * width for i in range(height)]] *)
Definition blank (height width : Z) : list (list entry) :=
  (λ _, replicate (Z.to_nat width) Blank) <$> range 0 height.

(** [for x in l: s = body(x, s)], where the body can raise. *)
Fixpoint for_each {A S : Type} (l : list A) (body : A → S → option S) (s : S) : option S :=
  match l with
  | [] => Some s
  | x :: l' => match body x s with Some s' => for_each l' body s' | None => None end
  end.

(** [log_minefield]: the entries printed, row by row. *)
Definition log_minefield (self : MinesweeperAI.t) (grid : list (list entry))
  : option (list (list entry)) :=
  mapM (λ y, mapM (λ x, get grid y x) (range 0 (MinesweeperAI.width self)))
    (range 0 (MinesweeperAI.height self)).

(** [(y, x) = cell
     if grid[y][x] == "-": grid[y][x] = sentence.count] *)
Definition write_count (count : Z) (cell : Cell) (grid : list (list entry))
  : option (list (list entry)) :=
  match get grid cell.1 cell.2 with
  | Some e => if is_blank e then put grid cell.1 cell.2 (Number count) else Some grid
  | None => None
  end.

(** [(y, x) = cell
     grid[y][x] = e] *)
Definition write (e : entry) (cell : Cell) (grid : list (list entry))
  : option (list (list entry)) :=
  put grid cell.1 cell.2 e.

(** The body of the loop of [log_knowledge] over the sentences. *)
Definition log_sentence (sentence : Sentence.t) (grid : list (list entry))
  : option (list (list entry)) :=
  match for_each (elements (Sentence.cells sentence))
          (write_count (Sentence.count sentence)) grid with
  | Some grid1 =>
      match for_each (elements (Sentence.known_safes sentence)) (write KnownSafe) grid1 with
      | Some grid2 => for_each (elements (Sentence.known_mines sentence)) (write KnownMine) grid2
      | None => None
      end
  | None => None
  end.

Definition log_knowledge (self : MinesweeperAI.t) : option (list (list entry)) :=
  match for_each (MinesweeperAI.knowledge self) log_sentence
          (blank (MinesweeperAI.height self) (MinesweeperAI.width self)) with
  | Some grid => log_minefield self grid
  | None => None
  end.

(** [grid = [['-'] * self.width for i in range(self.height)]
     for y in range(0, self.height):
         for x in range(0, self.width):
             cell = (y, x)
             <if mark(cell) is an entry e: grid[y][x] = e>]
    the loop of [log_cells] and of [log_data]. *)
Definition paint (self : MinesweeperAI.t) (mark : Cell → option entry)
  : option (list (list entry)) :=
  for_each (range 0 (MinesweeperAI.height self))
    (λ y, for_each (range 0 (MinesweeperAI.width self))
      (λ x grid, match mark (y, x) with Some e => put grid y x e | None => Some grid end))
    (blank (MinesweeperAI.height self) (MinesweeperAI.width self)).

Definition log_cells (self : MinesweeperAI.t) (cells : gset Cell)
  : option (list (list entry)) :=
  match paint self (λ cell, if bool_decide (cell ∈ cells) then Some Symbol else None) with
  | Some grid => log_minefield self grid
  | None => None
  end.

Definition log_data (self : MinesweeperAI.t) : option (list (list entry)) :=
  match paint self (λ cell,
          if bool_decide (cell ∈ MinesweeperAI.mines self) then Some KnownMine
          else if bool_decide (cell ∈ MinesweeperAI.safes self) then Some KnownSafe
          else if bool_decide (cell ∈ MinesweeperAI.moves_made self) then Some Asked
          else None) with
  | Some grid => log_minefield self grid
  | None => None
  end.

End Log.

(** ** Notions used to state the properties *)

(** [set.pop()] as the head of the set's listing: one admissible choice. *)
Definition pop_first_fun (s : gset Cell) : Cell := default (0, 0) (head (elements s)).

(** The cells of the grid. *)
Definition in_bounds (g : Minesweeper.t) (cell : Cell) : Prop :=
  0 ≤ cell.1 < Minesweeper.height g ∧ 0 ≤ cell.2 < Minesweeper.width g.

(** The sentence holds on the board: its count is the number of its cells
    that are mines. *)
Definition holds_on (g : Minesweeper.t) (s : Sentence.t) : Prop :=
  Sentence.count s
  = Z.of_nat (size (filter (λ c, Minesweeper.is_mine g c = true) (Sentence.cells s))).

(** What the engine knows is true of the board [g]. *)
Record sound (g : Minesweeper.t) (ai : MinesweeperAI.t) : Prop := {
  sound_height : MinesweeperAI.height ai = Minesweeper.height g;
  sound_width : MinesweeperAI.width ai = Minesweeper.width g;
  sound_safes : ∀ c, c ∈ MinesweeperAI.safes ai → Minesweeper.is_mine g c = false;
  sound_mines : ∀ c, c ∈ MinesweeperAI.mines ai → Minesweeper.is_mine g c = true;
  sound_knowledge : ∀ s, s ∈ MinesweeperAI.knowledge ai → holds_on g s;
}.

(** What the board reports when [cell] is probed. *)
Definition observe (g : Minesweeper.t) (cell : Cell) : Cell * Z :=
  (cell, Minesweeper.nearby_mines g cell).

(** A cell the game reports a count for: a cell of the grid that is not a
    mine. *)
Definition safe_probe (g : Minesweeper.t) (cell : Cell) : Prop :=
  in_bounds g cell ∧ Minesweeper.is_mine g cell = false.

(** A fresh engine for the board [g], fed the true counts of [probes]. *)
Definition play (fuel : nat) (g : Minesweeper.t) (probes : list Cell) : option MinesweeperAI.t :=
  MinesweeperAI.add_knowledge_seq fuel (observe g <$> probes)
    (MinesweeperAI.init (Minesweeper.height g) (Minesweeper.width g)).

(** The sentence that step 5 derives from [a] and [b]. *)
Definition is_difference (a b s : Sentence.t) : Prop :=
  Sentence.cells a ⊆ Sentence.cells b
  ∧ Sentence.cells s = Sentence.cells b ∖ Sentence.cells a
  ∧ Sentence.count s = Sentence.count b - Sentence.count a.


(** Nothing is forgotten between [a] and [b]. *)
Definition grows (a b : MinesweeperAI.t) : Prop :=
  MinesweeperAI.safes a ⊆ MinesweeperAI.safes b ∧ MinesweeperAI.mines a ⊆ MinesweeperAI.mines b.

(** The cells [(i, j)] with [i] in [rows] and [j] in [cols], row by row. *)
Definition cell_list (rows cols : list Z) : list Cell :=
  i ← rows; pair i <$> cols.

(** The test of the loop body of [nearby_mines]. *)
Definition counted (g : Minesweeper.t) (cell p : Cell) : bool :=
  negb (bool_decide (p = cell))
  && (bool_decide (0 ≤ p.1 < Minesweeper.height g) && bool_decide (0 ≤ p.2 < Minesweeper.width g))
  && Minesweeper.board_at g p.1 p.2.

(** What [__eq__] looks at. *)
Definition contents (s : Sentence.t) : gset Cell * Z := (Sentence.cells s, Sentence.count s).

(** [for c in cells: sentence.mark_safe(c)] *)
Definition without (cells : gset Cell) (s : Sentence.t) : Sentence.t :=
  {| Sentence.oid := Sentence.oid s; Sentence.cells := Sentence.cells s ∖ cells;
     Sentence.count := Sentence.count s |}.

(** [pop_first_fun] is an admissible [set.pop()]. *)
Definition pop_first : SetPop.
Proof.
  refine {| set_pop := pop_first_fun |}.
  intros s Hs. unfold pop_first_fun.
  destruct (elements s) as [|c l] eqn:Hel.
  - by apply elements_empty_inv, leibniz_equiv in Hel.
  - simpl. apply elem_of_elements. rewrite Hel. left.
Defined.


(** ** Measures for the termination of step 5 *)

(** The cell sets of the sentences of [k]. *)
Definition cell_sets (k : list Sentence.t) : gset (gset Cell) :=
  list_to_set (Sentence.cells <$> k).

(** All the subsets of the cells listed in [l]. *)
Fixpoint subsets (l : list Cell) : gset (gset Cell) :=
  match l with
  | [] => {[∅]}
  | c :: l' => subsets l' ∪ set_map (λ x : gset Cell, {[c]} ∪ x) (subsets l')
  end.

(** The number of subsets of [u] that are not yet the cell set of a
    sentence of [k]. *)
Definition room (u : gset Cell) (k : list Sentence.t) : nat :=
  size (subsets (elements u) ∖ cell_sets k).

(** An entry equal to [s1] is still in the list [k]: [s1] itself, or one
    at an index the inner loop has passed. *)
Definition copy_kept (s1 : Sentence.t) (j : nat) (k : list Sentence.t) : Prop :=
  ∃ i x, k !! i = Some x ∧ Sentence.eqb x s1 = true
         ∧ (Sentence.oid x = Sentence.oid s1 ∨ (i < j)%nat).

(** Every sentence of [k] holds on the board and speaks of cells of [u]. *)
Definition good (g : Minesweeper.t) (u : gset Cell) (k : list Sentence.t) : Prop :=
  ∀ s, s ∈ k → holds_on g s ∧ Sentence.cells s ⊆ u.

(** All the cells the sentences of [k] speak of. *)
Definition all_cells (k : list Sentence.t) : gset Cell :=
  ⋃ (Sentence.cells <$> k).


(** ** Boards used in the examples *)

(** One row of four cells, a mine in the second. *)
Definition grid_1x4 : Minesweeper.t :=
  Minesweeper.Build 1 4 [[false; true; false; false]].

(** Three rows of three cells, a mine in the top left corner. *)
Definition grid_3x3 : Minesweeper.t :=
  Minesweeper.Build 3 3
    [[true; false; false]; [false; false; false]; [false; false; false]].

(** A single cell, which is a mine. *)
Definition grid_1x1 : Minesweeper.t := Minesweeper.Build 1 1 [[true]].

Import MinesweeperAI.

(** ** A call that does not return *)

(** The engine after [add_knowledge((0, 0), 1)] on a board of one cell. *)
Definition stuck_start : MinesweeperAI.t :=
  {| height := 1; width := 1; moves_made := {[(0, 0)]}; mines := ∅;
     safes := {[(0, 0)]};
     knowledge := [{| Sentence.oid := 0; Sentence.cells := ∅; Sentence.count := 1 |}];
     next_oid := 1 |}.

(** The sentence the second call appends. *)
Definition stuck_sentence : Sentence.t :=
  {| Sentence.oid := 1; Sentence.cells := ∅; Sentence.count := 2 |}.

(** The state of the inner loop of step 5 from which it only appends:
    the entry at index [j] is the last one, it has no cells and the
    smallest count, below that of [stuck_sentence]. *)
Definition stuck_at (j : nat) (st : MinesweeperAI.t) : Prop :=
  ∃ s2, knowledge st !! j = Some s2
    ∧ length (knowledge st) = S j
    ∧ Sentence.oid s2 ≠ 1%nat ∧ (2 ≤ next_oid st)%nat
    ∧ Sentence.cells s2 = ∅ ∧ Sentence.count s2 < 2
    ∧ ∀ y, y ∈ knowledge st → Sentence.count s2 ≤ Sentence.count y.


(** ** Engines that hold one sentence *)

(** The sentence [{(0, 1)} = 0] and an engine that holds only it. *)
Definition zero_sentence : Sentence.t :=
  {| Sentence.oid := 0; Sentence.cells := {[(0, 1)]}; Sentence.count := 0 |}.

Definition one_zero : MinesweeperAI.t :=
  {| height := 1; width := 2; moves_made := ∅; mines := ∅; safes := ∅;
     knowledge := [zero_sentence]; next_oid := 1 |}.

(** The sentence [{(0, 1)} = 1] and an engine that holds only it. *)
Definition full_sentence : Sentence.t :=
  {| Sentence.oid := 0; Sentence.cells := {[(0, 1)]}; Sentence.count := 1 |}.

Definition one_full : MinesweeperAI.t :=
  {| height := 1; width := 2; moves_made := ∅; mines := ∅; safes := ∅;
     knowledge := [full_sentence]; next_oid := 1 |}.


(** ** Notions used to state the further properties *)

(** The eight steps from a cell to its neighbours. *)
Definition steps : list Cell :=
  [(-1, -1); (-1, 0); (-1, 1); (0, -1); (0, 1); (1, -1); (1, 0); (1, 1)].

(** The eight cells around [cell], on the grid or not. *)
Definition around (cell : Cell) : list Cell :=
  (λ d : Cell, (cell.1 + d.1, cell.2 + d.2)) <$> steps.

(** [cell] lies on the grid of the engine. *)
Definition on_grid (height width : Z) (cell : Cell) : Prop :=
  (0 ≤ cell.1 < height) ∧ (0 ≤ cell.2 < width).

(** What holds of an engine for a grid of [height] rows and [width]
    columns whatever it has been told: it has kept its dimensions, the
    moves made are [made] and are known safe, and the cells of its sentences
    and its known mines lie on the grid. *)
Record tidy (height width : Z) (made : gset Cell) (ai : MinesweeperAI.t) : Prop := {
  tidy_height : MinesweeperAI.height ai = height;
  tidy_width : MinesweeperAI.width ai = width;
  tidy_moves : MinesweeperAI.moves_made ai = made;
  tidy_moves_safe : made ⊆ MinesweeperAI.safes ai;
  tidy_cells : ∀ s c, s ∈ MinesweeperAI.knowledge ai → c ∈ Sentence.cells s →
               on_grid height width c;
  tidy_mines : ∀ c, c ∈ MinesweeperAI.mines ai → on_grid height width c;
}.

(** The cells of a sequence of observations. *)
Definition probed (obs : list (Cell * Z)) : gset Cell := list_to_set (obs.*1).

(** A tidy engine whose safe cells lie on the grid. *)
Definition grounded (h w : Z) (st : MinesweeperAI.t) : Prop :=
  (∃ made, tidy h w made st) ∧ ∀ c, c ∈ safes st → on_grid h w c.

(** [for c in cells: sentence.mark_mine(c)] *)
Definition with_mines (cells : gset Cell) (s : Sentence.t) : Sentence.t :=
  {| Sentence.oid := Sentence.oid s; Sentence.cells := Sentence.cells s ∪ cells;
     Sentence.count := Sentence.count s + Z.of_nat (size (cells ∖ Sentence.cells s)) |}.

(** The board has [height] rows of [width] entries, and its mines are the
    cells of [mines], which lie on the grid. *)
Record board_ok (height width : Z) (g : Game.t) : Prop := {
  board_height : Minesweeper.height (Game.grid g) = height;
  board_width : Minesweeper.width (Game.grid g) = width;
  board_rows : length (Minesweeper.board (Game.grid g)) = Z.to_nat height;
  board_cols : Forall (λ row, length row = Z.to_nat width) (Minesweeper.board (Game.grid g));
  board_mines : ∀ c, on_grid height width c →
                (Minesweeper.is_mine (Game.grid g) c = true ↔ c ∈ Game.mines g);
  board_mines_on_grid : ∀ c, c ∈ Game.mines g → on_grid height width c;
  board_found : Game.mines_found g = ∅;
}.

(** The entry of a printed table at a cell. *)
Definition shown (table : list (list Log.entry)) (cell : Cell) : option Log.entry :=
  match table !! Z.to_nat cell.1 with
  | Some row => row !! Z.to_nat cell.2
  | None => None
  end.

(** A grid of [height] rows of [width] entries. *)
Definition shaped (height width : Z) (grid : list (list Log.entry)) : Prop :=
  length grid = Z.to_nat height ∧ Forall (λ row, length row = Z.to_nat width) grid.

(** A body of a loop over cells that writes an entry other than ['-'] at
    its cell, or leaves a grid alone whose entry there is not ['-']. *)
Definition marks (h w : Z) (body : Cell → list (list Log.entry) → option (list (list Log.entry)))
  : Prop :=
  ∀ c0 grid, shaped h w grid → on_grid h w c0 →
    ∃ grid', body c0 grid = Some grid' ∧ shaped h w grid'
      ∧ ∀ c, on_grid h w c →
          (shown grid' c = Some Log.Blank ↔ shown grid c = Some Log.Blank ∧ c ≠ c0).


(** * Properties *)


(** ** Loop invariants *)

Lemma for_set_inv {A : Type} (P : A → Prop) (s : gset Cell) (body : Cell → A → A) (st : A) :
P st → (∀ c a, c ∈ s → P a → P (body c a)) → P (for_set s body st).
Proof.
intros Hst Hbody. unfold for_set.
assert (Hin : ∀ c, c ∈ elements s → c ∈ s) by (intros c; apply elem_of_elements).
revert st Hst Hin. induction (elements s) as [|c l IH]; intros st Hst Hin; simpl; [done|].
apply IH.
- apply Hbody; [apply Hin; left | done].
- intros c' Hc'. apply Hin. by right.
Qed.

Section loop_invariants.
Variable P : MinesweeperAI.t → Prop.

Lemma mark_known_mines_from_inv (Q : Cell → Prop) :
  (∀ st s c, P st → s ∈ knowledge st → c ∈ Sentence.known_mines s → Q c) →
  (∀ st c, Q c → P st → P (mark_mine c st)) →
  ∀ n i st, P st → P (mark_known_mines_from n i st).
Proof.
  intros HQ Hmark. induction n as [|n IH]; intros i st Hst; simpl; [done|].
  destruct (knowledge st !! i) as [s|] eqn:Hs; [|done].
  apply IH, for_set_inv; [done|].
  intros c a Hc Ha. apply Hmark; [|done].
  eapply HQ; [exact Hst| |exact Hc]. by eapply list_elem_of_lookup_2.
Qed.

Lemma mark_known_safes_from_inv (Q : Cell → Prop) :
  (∀ st s c, P st → s ∈ knowledge st → c ∈ Sentence.known_safes s → Q c) →
  (∀ st c, Q c → P st → P (mark_safe c st)) →
  ∀ n i st, P st → P (mark_known_safes_from n i st).
Proof.
  intros HQ Hmark. induction n as [|n IH]; intros i st Hst; simpl; [done|].
  destruct (knowledge st !! i) as [s|] eqn:Hs; [|done].
  apply IH, for_set_inv; [done|].
  intros c a Hc Ha. apply Hmark; [|done].
  eapply HQ; [exact Hst| |exact Hc]. by eapply list_elem_of_lookup_2.
Qed.

Variable Q : Sentence.t → Prop.
Hypothesis P_knowledge : ∀ st s, P st → s ∈ knowledge st → Q s.
Hypothesis P_step : ∀ s1 s2 st, Q s1 → Q s2 → P st → P (infer_step s1 s2 st).

Lemma infer_inner_inv fuel s1 j st st' :
  Q s1 → P st → infer_inner fuel s1 j st = Some st' → P st'.
Proof.
  intros Hs1. revert j st. induction fuel as [|fuel IH]; intros j st Hst; simpl; [done|].
  destruct (knowledge st !! j) as [s2|] eqn:Hs2; [|by intros [= <-]].
  apply IH, P_step; [done| |done].
  eapply P_knowledge; [done|]. by eapply list_elem_of_lookup_2.
Qed.

Lemma infer_outer_inv fuel i st st' :
  P st → infer_outer fuel i st = Some st' → P st'.
Proof.
  revert i st. induction fuel as [|fuel IH]; intros i st Hst; simpl; [done|].
  destruct (knowledge st !! i) as [s1|] eqn:Hs1; [|by intros [= <-]].
  destruct (infer_inner fuel s1 0 st) as [st1|] eqn:Hin; [|done].
  apply IH. eapply infer_inner_inv; [|done|done].
  eapply P_knowledge; [done|]. by eapply list_elem_of_lookup_2.
Qed.
End loop_invariants.

(** ** Monotonicity *)

#[local] Instance grows_preorder : PreOrder grows.
Proof. split; [intros a | intros a b c [??] [??]]; split; set_solver. Qed.

Lemma grows_mark_mine c st : grows st (mark_mine c st).
Proof. split; simpl; set_solver. Qed.

Lemma grows_mark_safe c st : grows st (mark_safe c st).
Proof. split; simpl; set_solver. Qed.

Lemma grows_infer_step s1 s2 st : grows st (infer_step s1 s2 st).
Proof.
unfold infer_step, new_sentence. simpl.
destruct (bool_decide _); [done|]. destruct (Sentence.eqb _ _); [done|].
destruct (bool_decide _); [|done]. by destruct (negb _).
Qed.

Lemma grows_add_knowledge_head cell count st : grows st (add_knowledge_head cell count st).
Proof.
unfold add_knowledge_head, mark_known_mines, mark_known_safes. simpl.
assert (Hm : ∀ st0 n i a, grows st0 a → grows st0 (mark_known_mines_from n i a)).
{ intros st0. apply (mark_known_mines_from_inv (grows st0) (λ _, True)); [done|].
  intros a c _ Ha. etrans; [exact Ha|apply grows_mark_mine]. }
assert (Hs : ∀ st0 n i a, grows st0 a → grows st0 (mark_known_safes_from n i a)).
{ intros st0. apply (mark_known_safes_from_inv (grows st0) (λ _, True)); [done|].
  intros a c _ Ha. etrans; [exact Ha|apply grows_mark_safe]. }
assert (H0 : ∀ a, grows st a → grows st
   (if bool_decide (count = 0) then for_set (get_surrounding_cells st cell) mark_safe a else a)).
{ intros a Ha. case_bool_decide; [|done].
  apply for_set_inv; [done|]. intros c b _ Hb. etrans; [exact Hb|apply grows_mark_safe]. }
apply H0, Hs, Hm. split; simpl; set_solver.
Qed.

Lemma grows_add_knowledge_tail st : grows st (add_knowledge_tail st).
Proof.
unfold add_knowledge_tail, mark_known_mines, mark_known_safes.
apply (mark_known_safes_from_inv (grows st) (λ _, True)); [done| |].
{ intros a c _ Ha. etrans; [exact Ha|apply grows_mark_safe]. }
apply (mark_known_mines_from_inv (grows st) (λ _, True)); [done| |done].
intros a c _ Ha. etrans; [exact Ha|apply grows_mark_mine].
Qed.

Lemma grows_add_knowledge fuel cell count st st' :
add_knowledge fuel cell count st = Some st' → grows st st'.
Proof.
unfold add_knowledge.
destruct (infer_outer _ _ _) as [st1|] eqn:Hout; [|done]. intros [= <-].
etrans; [apply grows_add_knowledge_head|]. etrans; [|apply grows_add_knowledge_tail].
eapply (infer_outer_inv (grows (add_knowledge_head cell count st)) (λ _, True)); [done| |done|done].
intros s1 s2 a _ _ Ha. etrans; [exact Ha|apply grows_infer_step].
Qed.

(** Claim C5 (monotonicity).  Over any sequence of [add_knowledge] calls,
    from any state and with any arguments, [self.safes] and [self.mines]
    keep all their members. *)
Theorem known_sets_never_shrink fuel obs st st' :
add_knowledge_seq fuel obs st = Some st' →
safes st ⊆ safes st' ∧ mines st ⊆ mines st'.
Proof.
revert st. induction obs as [|[cell count] obs IH]; intros st; simpl.
- by intros [= <-].
- destruct (add_knowledge fuel cell count st) as [st1|] eqn:Hadd; [|done].
  intros Hseq. change (grows st st'). etrans; [by eapply grows_add_knowledge|].
  by apply IH.
Qed.

(** ** The board and the neighbourhood of a cell *)

Lemma elem_of_cell_list rows cols p :
p ∈ cell_list rows cols ↔ p.1 ∈ rows ∧ p.2 ∈ cols.
Proof.
unfold cell_list. rewrite list_elem_of_bind. destruct p as [i j]. simpl. split.
- intros (i' & (j' & [= -> ->] & Hj)%list_elem_of_fmap & Hi). done.
- intros [Hi Hj]. exists i. split; [|done]. apply list_elem_of_fmap. eauto.
Qed.

Lemma NoDup_cell_list rows cols :
NoDup rows → NoDup cols → NoDup (cell_list rows cols).
Proof.
intros Hrows Hcols. unfold cell_list. apply NoDup_bind; [| |done].
- intros i1 i2 p _ _ (? & -> & _)%list_elem_of_fmap (? & [= -> _] & _)%list_elem_of_fmap. done.
- intros i _. by apply NoDup_fmap; [intros ?? [= ->]|].
Qed.

Lemma elem_of_collect_cells rows cols keep p :
p ∈ collect_cells rows cols keep ↔ p.1 ∈ rows ∧ p.2 ∈ cols ∧ keep p = true.
Proof.
unfold collect_cells.
assert (Hinner : ∀ i (l : list Z) (acc : gset Cell),
  p ∈ foldl (λ cells j, if keep (i, j) then cells ∪ {[(i, j)]} else cells) acc l
  ↔ p ∈ acc ∨ (p.1 = i ∧ p.2 ∈ l ∧ keep p = true)).
{ intros i. induction l as [|j l IH]; intros acc; simpl.
  - rewrite elem_of_nil. tauto.
  - rewrite IH, elem_of_cons. destruct (keep (i, j)) eqn:Hkeep.
    + rewrite elem_of_union, elem_of_singleton. destruct p as [pi pj]; simpl. split.
      * intros [[?|[= -> ->]]|?]; [tauto|right; tauto|tauto].
      * intros [?|(-> & [->|?] & ?)]; tauto.
    + destruct p as [pi pj]; simpl. split; [tauto|].
      intros [?|(-> & [->|?] & ?)]; [tauto|congruence|tauto]. }
assert (Houter : ∀ (l : list Z) (acc : gset Cell),
  p ∈ foldl (λ cells i,
        foldl (λ cells j, if keep (i, j) then cells ∪ {[(i, j)]} else cells) cells cols)
      acc l
  ↔ p ∈ acc ∨ (p.1 ∈ l ∧ p.2 ∈ cols ∧ keep p = true)).
{ induction l as [|i l IH]; intros acc; simpl.
  - rewrite elem_of_nil. tauto.
  - rewrite IH, Hinner, elem_of_cons. split; [|intros [?|([->|?] & ? & ?)]; tauto].
    intros [[?|(<- & ? & ?)]|?]; tauto. }
rewrite Houter, elem_of_empty. tauto.
Qed.

Lemma foldl_count_cells (f : Cell → bool) (body : Z → Z → Z → Z) rows cols count :
(∀ i count j, body i count j = if f (i, j) then count + 1 else count) →
foldl (λ count i, foldl (body i) count cols) count rows
= count + Z.of_nat (length (filter (λ p, f p = true) (cell_list rows cols))).
Proof.
intros Hbody.
assert (Hinner : ∀ i (l : list Z) count,
  foldl (body i) count l
  = count + Z.of_nat (length (filter (λ p, f p = true) (pair i <$> l)))).
{ intros i. induction l as [|j l IH]; intros n; csimpl; [lia|].
  rewrite IH, Hbody, filter_cons. destruct (f (i, j)) eqn:Hf.
  - rewrite decide_True by done. csimpl. lia.
  - rewrite decide_False by congruence. done. }
revert count. induction rows as [|i rows IH]; intros count; [simpl; lia|].
unfold cell_list in *. cbn [foldl]. rewrite IH, Hinner, bind_cons, filter_app, length_app. lia.
Qed.

Lemma nearby_mines_length g cell :
Minesweeper.nearby_mines g cell
= Z.of_nat (length (filter (λ p, counted g cell p = true)
     (cell_list (range (cell.1 - 1) (cell.1 + 2)) (range (cell.2 - 1) (cell.2 + 2))))).
Proof.
unfold Minesweeper.nearby_mines.
rewrite (foldl_count_cells (counted g cell)); [lia|].
intros i count j. unfold counted. simpl.
destruct (bool_decide ((i, j) = cell)); [done|]. simpl.
by destruct (_ && _).
Qed.

Lemma nearby_mines_surrounding_safes g st cell :
height st = Minesweeper.height g → width st = Minesweeper.width g →
(∀ c, c ∈ safes st → Minesweeper.is_mine g c = false) →
in_bounds g cell →
Minesweeper.nearby_mines g cell
= Z.of_nat (size (filter (λ c, Minesweeper.is_mine g c = true) (get_surrounding_cells st cell))).
Proof.
intros Hh Hw Hsafes [Hrow Hcol]. rewrite nearby_mines_length.
rewrite <-(size_list_to_set (C:=gset Cell))
  by (apply NoDup_filter, NoDup_cell_list; apply NoDup_seqZ).
do 2 f_equal. apply set_eq. intros p.
rewrite elem_of_list_to_set, list_elem_of_filter, elem_of_cell_list, elem_of_filter.
unfold get_surrounding_cells. rewrite elem_of_collect_cells.
unfold range. rewrite !elem_of_seqZ, Hh, Hw.
unfold counted, Minesweeper.is_mine.
rewrite !andb_true_iff, negb_true_iff, !bool_decide_eq_true, bool_decide_eq_false.
split.
- intros (((Hne & Hi & Hj) & Hmine) & Hpi & Hpj).
  assert (p ∉ safes st).
  { intros Hsafe%Hsafes. unfold Minesweeper.is_mine in Hsafe. congruence. }
  split; [done|]. repeat case_bool_decide; repeat split; try done; lia.
- intros (Hmine & Hpi & Hpj & Hne & _).
  repeat case_bool_decide; repeat split; try done; lia.
Qed.

Lemma nearby_mines_surrounding g st cell :
sound g st → in_bounds g cell →
Minesweeper.nearby_mines g cell
= Z.of_nat (size (filter (λ c, Minesweeper.is_mine g c = true) (get_surrounding_cells st cell))).
Proof. intros [Hh Hw Hsafes _ _]. by apply nearby_mines_surrounding_safes. Qed.

(** ** Soundness *)

Section soundness.
Variable g : Minesweeper.t.

Lemma holds_on_mark_mine c s :
  Minesweeper.is_mine g c = true → holds_on g s → holds_on g (Sentence.mark_mine c s).
Proof.
  unfold holds_on, Sentence.mark_mine. intros Hc Hs.
  case_bool_decide as Hin; [simpl|done].
  assert (filter (λ c, Minesweeper.is_mine g c = true) (Sentence.cells s ∪ {[c]})
          = filter (λ c, Minesweeper.is_mine g c = true) (Sentence.cells s) ∪ {[c]}) as ->
    by set_solver.
  rewrite size_union; [|set_solver]. rewrite size_singleton. lia.
Qed.

Lemma holds_on_mark_safe c s :
  Minesweeper.is_mine g c = false → holds_on g s → holds_on g (Sentence.mark_safe c s).
Proof.
  unfold holds_on, Sentence.mark_safe. intros Hc Hs.
  case_bool_decide as Hin; [simpl|done].
  assert (filter (λ c, Minesweeper.is_mine g c = true) (Sentence.cells s ∖ {[c]})
          = filter (λ c, Minesweeper.is_mine g c = true) (Sentence.cells s)) as ->; [|done].
  apply set_eq. intros x. rewrite !elem_of_filter, elem_of_difference, elem_of_singleton.
  split; [tauto|]. intros [Hx ?]. repeat split; try done. intros ->. congruence.
Qed.

Lemma known_mines_are_mines s c :
  holds_on g s → c ∈ Sentence.known_mines s → Minesweeper.is_mine g c = true.
Proof.
  unfold holds_on, Sentence.known_mines. intros Hs.
  destruct (bool_decide (Sentence.count s = _)) eqn:Hfull; simpl; [|set_solver].
  destruct (bool_decide (Sentence.count s > 0)); [|set_solver].
  apply bool_decide_eq_true in Hfull. intros Hc.
  assert (Heq : filter (λ c, Minesweeper.is_mine g c = true) (Sentence.cells s)
                ≡ Sentence.cells s).
  { apply set_subseteq_size_equiv; [set_solver|lia]. }
  apply Heq in Hc. by apply elem_of_filter in Hc as [? _].
Qed.

Lemma known_safes_are_safe s c :
  holds_on g s → c ∈ Sentence.known_safes s → Minesweeper.is_mine g c = false.
Proof.
  unfold holds_on, Sentence.known_safes. intros Hs.
  case_bool_decide as Hzero; [|set_solver]. intros Hc.
  assert (Hempty : filter (λ c, Minesweeper.is_mine g c = true) (Sentence.cells s) ≡ ∅).
  { apply size_empty_iff. lia. }
  destruct (Minesweeper.is_mine g c) eqn:Hmine; [|done].
  exfalso. eapply (not_elem_of_empty (C:=gset Cell)), Hempty, elem_of_filter. done.
Qed.

Lemma holds_on_difference a b s :
  holds_on g a → holds_on g b → is_difference a b s → holds_on g s.
Proof.
  unfold holds_on. intros Ha Hb (Hsub & Hcells & Hcount).
  rewrite Hcount, Hcells, Ha, Hb.
  assert (filter (λ c, Minesweeper.is_mine g c = true) (Sentence.cells b)
          = filter (λ c, Minesweeper.is_mine g c = true) (Sentence.cells a)
            ∪ filter (λ c, Minesweeper.is_mine g c = true) (Sentence.cells b ∖ Sentence.cells a))
    as ->.
  { apply set_eq. intros x. rewrite elem_of_union, !elem_of_filter, elem_of_difference.
    split; [|set_solver]. intros [? ?]. destruct (decide (x ∈ Sentence.cells a)); tauto. }
  rewrite size_union; [lia|]. set_solver.
Qed.

Lemma holds_on_eqb a b : Sentence.eqb a b = true → holds_on g a → holds_on g b.
Proof.
  unfold Sentence.eqb, holds_on. intros [Hc Hn]%andb_true_iff.
  apply bool_decide_eq_true in Hc, Hn. by rewrite Hc, Hn.
Qed.

Lemma sound_mark_mine c st :
  Minesweeper.is_mine g c = true → sound g st → sound g (mark_mine c st).
Proof.
  intros Hc [Hh Hw Hsafes Hmines Hk]. split; simpl; try done.
  - intros x [?| ->%elem_of_singleton]%elem_of_union; auto.
  - intros s (s0 & -> & Hs0)%list_elem_of_fmap. by apply holds_on_mark_mine, Hk.
Qed.

Lemma sound_mark_safe c st :
  Minesweeper.is_mine g c = false → sound g st → sound g (mark_safe c st).
Proof.
  intros Hc [Hh Hw Hsafes Hmines Hk]. split; simpl; try done.
  - intros x [?| ->%elem_of_singleton]%elem_of_union; auto.
  - intros s (s0 & -> & Hs0)%list_elem_of_fmap. by apply holds_on_mark_safe, Hk.
Qed.

Lemma elem_of_list_remove x y l : x ∈ list_remove y l → x ∈ l.
Proof.
  induction l as [|z l IH]; simpl; [done|].
  destruct (Sentence.eqb z y); [by right|].
  intros [->|?]%elem_of_cons; [left|right; auto].
Qed.

Lemma sound_infer_step s1 s2 st :
  holds_on g s1 → holds_on g s2 → sound g st → sound g (infer_step s1 s2 st).
Proof.
  intros Hs1 Hs2 [Hh Hw Hsafes Hmines Hk]. unfold infer_step, new_sentence. simpl.
  destruct (bool_decide (Sentence.oid s1 = _)); [done|].
  destruct (Sentence.eqb s1 s2).
  { split; simpl; try done. intros s Hs. eapply Hk, elem_of_list_remove, Hs. }
  case_bool_decide as Hsub; [|done].
  destruct (negb _); split; simpl; try done.
  intros s [?| ->%list_elem_of_singleton]%elem_of_app; [auto|].
  by apply (holds_on_difference s1 s2).
Qed.
End soundness.

Section soundness_of_add_knowledge.
Variable g : Minesweeper.t.

Lemma sound_mark_known_mines st : sound g st → sound g (mark_known_mines st).
Proof.
  apply (mark_known_mines_from_inv (sound g) (λ c, Minesweeper.is_mine g c = true)).
  - intros a s c Ha Hs. by apply known_mines_are_mines, Ha.
  - intros a c. apply sound_mark_mine.
Qed.

Lemma sound_mark_known_safes st : sound g st → sound g (mark_known_safes st).
Proof.
  apply (mark_known_safes_from_inv (sound g) (λ c, Minesweeper.is_mine g c = false)).
  - intros a s c Ha Hs. by apply known_safes_are_safe, Ha.
  - intros a c. apply sound_mark_safe.
Qed.

Lemma sound_init : sound g (init (Minesweeper.height g) (Minesweeper.width g)).
Proof. split; simpl; try done; intros ?; by rewrite ?elem_of_empty, ?elem_of_nil. Qed.

Lemma sound_add_knowledge_head cell st :
  safe_probe g cell → sound g st →
  sound g (add_knowledge_head cell (Minesweeper.nearby_mines g cell) st).
Proof.
  intros [Hin Hsafe] Hst. unfold add_knowledge_head, new_sentence. simpl.
  pose proof (nearby_mines_surrounding g st cell Hst Hin) as Hcount.
  set (surrounding := get_surrounding_cells st cell) in *.
  set (count := Minesweeper.nearby_mines g cell) in *.
  match goal with |- sound g (if _ then for_set _ _ ?a else _) => assert (Ha : sound g a) end.
  { apply sound_mark_known_safes, sound_mark_known_mines.
    pose proof (sound_mark_safe g cell st Hsafe Hst) as [Hh Hw Hs Hm Hk].
    split; simpl; try done.
    intros s [?| ->%list_elem_of_singleton]%elem_of_app; [by apply Hk|]. exact Hcount. }
  case_bool_decide as Hzero; [|done].
  apply for_set_inv; [done|]. intros c a Hc. apply sound_mark_safe.
  apply (known_safes_are_safe g {| Sentence.oid := 0; Sentence.cells := surrounding;
                                   Sentence.count := count |}); [exact Hcount|].
  unfold Sentence.known_safes. simpl. by rewrite bool_decide_true.
Qed.

Lemma sound_add_knowledge fuel cell st st' :
  safe_probe g cell → sound g st →
  add_knowledge fuel cell (Minesweeper.nearby_mines g cell) st = Some st' →
  sound g st'.
Proof.
  intros Hcell Hst. unfold add_knowledge.
  destruct (infer_outer _ _ _) as [st1|] eqn:Hout; [|done]. intros [= <-].
  apply sound_mark_known_safes, sound_mark_known_mines.
  eapply (infer_outer_inv (sound g) (holds_on g)); [| | |exact Hout].
  - intros a s Ha. apply Ha.
  - apply sound_infer_step.
  - by apply sound_add_knowledge_head.
Qed.

Lemma sound_add_knowledge_seq fuel probes st st' :
  Forall (safe_probe g) probes → sound g st →
  add_knowledge_seq fuel (observe g <$> probes) st = Some st' →
  sound g st'.
Proof.
  intros Hprobes. revert st. induction Hprobes as [|cell probes Hcell _ IH]; intros st Hst; simpl.
  - by intros [= <-].
  - destruct (add_knowledge _ _ _ _) as [st1|] eqn:Hadd; [|done].
    apply IH. by eapply sound_add_knowledge.
Qed.

Lemma sound_play fuel probes st :
  Forall (safe_probe g) probes → play fuel g probes = Some st → sound g st.
Proof. intros Hprobes. by apply sound_add_knowledge_seq, sound_init. Qed.

Lemma holds_on_count_range s :
  holds_on g s → 0 ≤ Sentence.count s ≤ Z.of_nat (size (Sentence.cells s)).
Proof.
  unfold holds_on. intros ->. split; [lia|].
  apply inj_le, subseteq_size. intros c. rewrite elem_of_filter. tauto.
Qed.
End soundness_of_add_knowledge.

(** ** Marking a set of safe cells; passes that change nothing *)

Lemma sentence_eq (a b : Sentence.t) :
  Sentence.oid a = Sentence.oid b → Sentence.cells a = Sentence.cells b →
  Sentence.count a = Sentence.count b → a = b.
Proof. destruct a, b. simpl. by intros -> -> ->. Qed.

Lemma without_mark_safe c cells s :
  without cells (Sentence.mark_safe c s) = without ({[c]} ∪ cells) s.
Proof.
  unfold Sentence.mark_safe. case_bool_decide as Hin; apply sentence_eq; simpl; try done.
  all: set_solver.
Qed.

Lemma for_set_mark_safe_knowledge cells st :
  knowledge (for_set cells mark_safe st) = without cells <$> knowledge st.
Proof.
  unfold for_set. rewrite <-(list_to_set_elements_L cells) at 2.
  generalize (elements cells) as l. intros l. revert st.
  induction l as [|c l IH]; intros st; simpl.
  - rewrite <-(list_fmap_id (knowledge st)) at 1. apply list_fmap_ext.
    intros _ s _. apply sentence_eq; simpl; try done. set_solver.
  - rewrite IH. simpl. rewrite <-list_fmap_compose. apply list_fmap_ext.
    intros _ s _. apply without_mark_safe.
Qed.

Lemma for_set_empty {A : Type} (body : Cell → A → A) (st : A) : for_set ∅ body st = st.
Proof. unfold for_set. by rewrite elements_empty. Qed.

Lemma mark_known_mines_nothing st :
  (∀ s, s ∈ knowledge st → Sentence.known_mines s = ∅) → mark_known_mines st = st.
Proof.
  intros Hnone. unfold mark_known_mines. generalize (length (knowledge st)) as n.
  intros n. generalize 0%nat as i. induction n as [|n IH]; intros i; simpl; [done|].
  destruct (knowledge st !! i) as [s|] eqn:Hs; [|done].
  rewrite (Hnone s) by (by eapply list_elem_of_lookup_2). by rewrite for_set_empty.
Qed.

Lemma mark_known_safes_nothing st :
  (∀ s, s ∈ knowledge st → Sentence.known_safes s = ∅) → mark_known_safes st = st.
Proof.
  intros Hnone. unfold mark_known_safes. generalize (length (knowledge st)) as n.
  intros n. generalize 0%nat as i. induction n as [|n IH]; intros i; simpl; [done|].
  destruct (knowledge st !! i) as [s|] eqn:Hs; [|done].
  rewrite (Hnone s) by (by eapply list_elem_of_lookup_2). by rewrite for_set_empty.
Qed.

Lemma known_mines_zero s : Sentence.count s = 0 → Sentence.known_mines s = ∅.
Proof.
  intros Hzero. unfold Sentence.known_mines.
  by rewrite Hzero, (bool_decide_false (0 > 0)), andb_false_r by lia.
Qed.

Lemma infer_outer_single n s st :
  knowledge st = [s] → infer_outer (3 + n) 0 st = Some st.
Proof.
  intros Hs. cbn [Nat.add infer_outer infer_inner]. rewrite Hs. cbn [lookup list_lookup].
  unfold infer_step. rewrite bool_decide_true by done. rewrite Hs. cbn [lookup list_lookup].
  destruct n; cbn [infer_outer]; by rewrite Hs.
Qed.


(** ** Termination of step 5 on true sentences *)

Lemma eqb_spec a b :
  Sentence.eqb a b = true ↔ Sentence.cells a = Sentence.cells b ∧ Sentence.count a = Sentence.count b.
Proof. unfold Sentence.eqb. by rewrite andb_true_iff, !bool_decide_eq_true. Qed.

Lemma eqb_sym a b : Sentence.eqb a b = true → Sentence.eqb b a = true.
Proof. rewrite !eqb_spec. by intros [-> ->]. Qed.

Lemma eqb_trans a b c :
  Sentence.eqb a b = true → Sentence.eqb b c = true → Sentence.eqb a c = true.
Proof. rewrite !eqb_spec. by intros [-> ->] [-> ->]. Qed.

Lemma list_contains_spec x l :
  list_contains x l = true ↔ ∃ y, y ∈ l ∧ Sentence.eqb y x = true.
Proof.
  unfold list_contains. rewrite existsb_exists. by setoid_rewrite list_elem_of_In.
Qed.

Lemma length_list_remove x l :
  list_contains x l = true → S (length (list_remove x l)) = length l.
Proof.
  unfold list_contains. induction l as [|y l IH]; simpl; [done|].
  destruct (Sentence.eqb y x); simpl; [done|]. intros H. by rewrite IH.
Qed.

Lemma list_remove_keeps x y l :
  y ∈ l → y ∈ list_remove x l ∨ Sentence.eqb y x = true.
Proof.
  induction l as [|z l IH]; simpl; [by intros ?%elem_of_nil|].
  destruct (Sentence.eqb z x) eqn:Hz.
  - intros [->|?]%elem_of_cons; [by right|by left].
  - intros [->|Hy]%elem_of_cons; [left; left|].
    destruct (IH Hy); [left; by right|by right].
Qed.

Lemma list_remove_second x a b l (i j : nat) :
  l !! i = Some a → l !! j = Some b → i ≠ j →
  Sentence.eqb a x = true → Sentence.eqb b x = true →
  ∃ i' y, list_remove x l !! i' = Some y
    ∧ ((y = a ∧ (i' ≤ i)%nat) ∨ (y = b ∧ (i' < j)%nat)).
Proof.
  revert i j. induction l as [|z l IH]; intros i j Ha Hb Hij Hax Hbx; [done|]. simpl.
  destruct (Sentence.eqb z x) eqn:Hz.
  - destruct i as [|i].
    + destruct j as [|j]; [done|]. exists j, b. split; [done|]. right. split; [done|lia].
    + exists i, a. split; [done|]. left. split; [done|lia].
  - destruct i as [|i]; [simpl in Ha; congruence|].
    destruct j as [|j]; [simpl in Hb; congruence|].
    destruct (IH i j) as (i' & y & Hy & Hcase); try done; [congruence|].
    exists (S i'), y. split; [done|]. destruct Hcase as [[-> ?]|[-> ?]]; [left|right]; split; try done; lia.
Qed.

Lemma elem_of_cell_sets x k :
  x ∈ cell_sets k ↔ ∃ s, s ∈ k ∧ Sentence.cells s = x.
Proof.
  unfold cell_sets. rewrite elem_of_list_to_set, list_elem_of_fmap. naive_solver.
Qed.

Lemma elem_of_subsets (l : list Cell) (x : gset Cell) :
  x ⊆ list_to_set l → x ∈ subsets l.
Proof.
  revert x. induction l as [|c l IH]; intros x Hx; simpl.
  - apply elem_of_singleton. apply leibniz_equiv. set_solver.
  - apply elem_of_union. destruct (decide (c ∈ x)) as [Hc|Hc].
    + right. apply elem_of_map. exists (x ∖ {[c]}). split.
      * apply set_eq. intros y. rewrite elem_of_union, elem_of_singleton, elem_of_difference,
          elem_of_singleton. destruct (decide (y = c)) as [->|]; naive_solver.
      * apply IH. set_solver.
    + left. apply IH. set_solver.
Qed.

Lemma room_append u k s :
  Sentence.cells s ⊆ u → Sentence.cells s ∉ cell_sets k →
  (room u (k ++ [s]) < room u k)%nat.
Proof.
  intros Hsub Hnew. unfold room. apply subset_size. split.
  - intros x. rewrite !elem_of_difference, !elem_of_cell_sets. intros [Hx Hk].
    split; [done|]. intros (y & Hy & <-). apply Hk. exists y. split; [|done].
    apply elem_of_app. by left.
  - intros Hall. assert (Hin : Sentence.cells s ∈ subsets (elements u) ∖ cell_sets k).
    { apply elem_of_difference. split; [|done]. apply elem_of_subsets.
      by rewrite list_to_set_elements_L. }
    apply Hall in Hin. apply elem_of_difference in Hin as [_ Hnot]. apply Hnot.
    apply elem_of_cell_sets. exists s. split; [|done]. apply elem_of_app. right. by left.
Qed.

Lemma room_same u k k' :
  (∀ x, x ∈ cell_sets k ↔ x ∈ cell_sets k') → room u k' = room u k.
Proof.
  intros Heq. unfold room. f_equal. apply set_eq. intros x.
  rewrite !elem_of_difference. by rewrite Heq.
Qed.

Lemma infer_step_cases s1 s2 st :
  knowledge (infer_step s1 s2 st) = knowledge st
  ∨ (Sentence.oid s1 ≠ Sentence.oid s2 ∧ Sentence.eqb s1 s2 = true
     ∧ knowledge (infer_step s1 s2 st) = list_remove s2 (knowledge st))
  ∨ (∃ new, is_difference s1 s2 new ∧ list_contains new (knowledge st) = false
     ∧ knowledge (infer_step s1 s2 st) = knowledge st ++ [new]).
Proof.
  unfold infer_step, new_sentence. simpl.
  case_bool_decide as Hoid; [by left|].
  destruct (Sentence.eqb s1 s2) eqn:Heq; [right; left; done|].
  case_bool_decide as Hsub; [|by left].
  destruct (list_contains _ _) eqn:Hin; simpl; [by left|].
  right. right. eexists. split; [|split; [exact Hin|done]]. done.
Qed.

Lemma infer_inner_fuel_mono fuel fuel' s1 j st st' :
  (fuel ≤ fuel')%nat → infer_inner fuel s1 j st = Some st' →
  infer_inner fuel' s1 j st = Some st'.
Proof.
  revert fuel' j st. induction fuel as [|fuel IH]; intros fuel' j st Hle; simpl; [done|].
  destruct fuel' as [|fuel']; [lia|]. simpl.
  destruct (knowledge st !! j); [|done]. apply IH. lia.
Qed.

Lemma infer_outer_fuel_mono fuel fuel' i st st' :
  (fuel ≤ fuel')%nat → infer_outer fuel i st = Some st' →
  infer_outer fuel' i st = Some st'.
Proof.
  revert fuel' i st. induction fuel as [|fuel IH]; intros fuel' i st Hle; simpl; [done|].
  destruct fuel' as [|fuel']; [lia|]. simpl.
  destruct (knowledge st !! i) as [s1|]; [|done].
  destruct (infer_inner fuel s1 0 st) as [st1|] eqn:Hin; [|done].
  rewrite (infer_inner_fuel_mono fuel fuel' s1 0 st st1) by (done || lia).
  apply IH. lia.
Qed.

Lemma add_knowledge_fuel_mono fuel fuel' cell count st st' :
  (fuel ≤ fuel')%nat → add_knowledge fuel cell count st = Some st' →
  add_knowledge fuel' cell count st = Some st'.
Proof.
  intros Hle. unfold add_knowledge.
  destruct (infer_outer fuel _ _) as [st1|] eqn:Hout; [|done].
  by rewrite (infer_outer_fuel_mono fuel fuel' _ _ st1).
Qed.

Section termination.
Variable g : Minesweeper.t.
Variable u : gset Cell.

Lemma good_fresh_cells k s :
  good g u k → holds_on g s → list_contains s k = false →
  Sentence.cells s ∉ cell_sets k.
Proof.
  intros Hk Hs Hnew (y & Hy & Hcells)%elem_of_cell_sets.
  assert (list_contains s k = true); [|congruence].
  apply list_contains_spec. exists y. split; [done|]. apply eqb_spec. split; [done|].
  destruct (Hk y Hy) as [Hhold _]. unfold holds_on in *. by rewrite Hhold, Hs, Hcells.
Qed.

Lemma infer_inner_terminates (r : nat) :
  ∀ (d : nat) s1 j st,
    holds_on g s1 → Sentence.cells s1 ⊆ u →
    good g u (knowledge st) → copy_kept s1 j (knowledge st) →
    (room u (knowledge st) ≤ r)%nat → (length (knowledge st) ≤ j + d)%nat →
    ∃ fuel st', infer_inner fuel s1 j st = Some st'
      ∧ good g u (knowledge st')
      ∧ (room u (knowledge st') ≤ room u (knowledge st))%nat
      ∧ (room u (knowledge st') = room u (knowledge st) →
         (length (knowledge st') ≤ length (knowledge st))%nat).
Proof.
  induction r as [r IHr] using lt_wf_ind.
  induction d as [|d IHd]; intros s1 j st Hs1 Hsub Hgood Hcopy Hroom Hlen.
  { exists 1%nat, st. simpl. rewrite lookup_ge_None_2 by lia. done. }
  destruct (knowledge st !! j) as [s2|] eqn:Hs2; [|exists 1%nat, st; simpl; by rewrite Hs2].
  assert (Hin2 : s2 ∈ knowledge st) by (by eapply list_elem_of_lookup_2).
  destruct (Hgood s2 Hin2) as [Hhold2 Hsub2].
  assert (Hnext : ∀ st2 : MinesweeperAI.t,
    (∃ fuel st', infer_inner fuel s1 (S j) st2 = Some st'
      ∧ good g u (knowledge st')
      ∧ (room u (knowledge st') ≤ room u (knowledge st))%nat
      ∧ (room u (knowledge st') = room u (knowledge st) →
         (length (knowledge st') ≤ length (knowledge st))%nat)) →
    st2 = infer_step s1 s2 st →
    ∃ fuel st', infer_inner fuel s1 j st = Some st'
      ∧ good g u (knowledge st')
      ∧ (room u (knowledge st') ≤ room u (knowledge st))%nat
      ∧ (room u (knowledge st') = room u (knowledge st) →
         (length (knowledge st') ≤ length (knowledge st))%nat)).
  { intros st2 (fuel & st' & Hrun & Hrest) ->. exists (S fuel), st'. simpl. by rewrite Hs2. }
  apply (Hnext (infer_step s1 s2 st)); [|done]. clear Hnext.
  destruct (infer_step_cases s1 s2 st) as [Hk|[(Hoid & Heq & Hk)|(new & Hdiff & Hnew & Hk)]].
  - (* nothing changes *)
    destruct (IHd s1 (S j) (infer_step s1 s2 st)) as (fuel & st' & Hrun & Hg & Hr & Hl);
      rewrite ?Hk; try done; try lia.
    { destruct Hcopy as (i & x & Hx & Hxeq & Hcase). exists i, x. repeat split; try done.
      destruct Hcase; [by left|right; lia]. }
    exists fuel, st'. by rewrite Hk in Hr, Hl.
  - (* a duplicate is removed *)
    destruct Hcopy as (i & x & Hx & Hxeq & Hcase).
    assert (Hij : i ≠ j).
    { intros ->. rewrite Hs2 in Hx. injection Hx as ->. destruct Hcase; [congruence|lia]. }
    destruct (list_remove_second s2 x s2 (knowledge st) i j) as (i' & y & Hy & Hycase);
      try done.
    { by eapply eqb_trans. }
    { by apply eqb_spec. }
    assert (Hyeq : Sentence.eqb y s1 = true).
    { destruct Hycase as [[-> _]|[-> _]]; [done|by apply eqb_sym]. }
    assert (Hsame : ∀ c, c ∈ cell_sets (knowledge st) ↔ c ∈ cell_sets (list_remove s2 (knowledge st))).
    { intros c. rewrite !elem_of_cell_sets. split.
      - intros (s & Hs & <-). destruct (list_remove_keeps s2 s _ Hs) as [?|Hseq]; [eauto|].
        exists y. split; [by eapply list_elem_of_lookup_2|].
        apply eqb_spec in Hseq as [-> _]. apply eqb_spec in Hyeq as [-> _].
        by apply eqb_spec in Heq as [-> _].
      - intros (s & Hs & <-). exists s. split; [|done]. by eapply elem_of_list_remove. }
    assert (Hlen' : S (length (list_remove s2 (knowledge st))) = length (knowledge st)).
    { apply length_list_remove, list_contains_spec. exists s2. split; [done|]. by apply eqb_spec. }
    assert (Hroom' : room u (list_remove s2 (knowledge st)) = room u (knowledge st))
      by (by apply room_same).
    destruct (IHd s1 (S j) (infer_step s1 s2 st)) as (fuel & st' & Hrun & Hg & Hr & Hl);
      rewrite ?Hk, ?Hroom'; try done; try lia.
    { intros s Hs. apply Hgood. by eapply elem_of_list_remove. }
    { exists i', y. repeat split; try done.
      destruct Hycase as [[-> ?]|[-> ?]]; [destruct Hcase; [by left|right; lia]|right; lia]. }
    exists fuel, st'. rewrite Hk, Hroom' in Hr, Hl.
    split; [done|]. split; [done|]. split; [done|]. intros Hsame'. specialize (Hl Hsame'). lia.
  - (* a new sentence is appended *)
    assert (Hholdn : holds_on g new) by (by apply (holds_on_difference g s1 s2)).
    assert (Hsubn : Sentence.cells new ⊆ u).
    { destruct Hdiff as (_ & -> & _). set_solver. }
    assert (Hless : (room u (knowledge st ++ [new]) < room u (knowledge st))%nat).
    { apply room_append; [done|]. by apply good_fresh_cells. }
    destruct (IHr (room u (knowledge st ++ [new])) ltac:(lia)
                (length (knowledge st ++ [new])) s1 (S j) (infer_step s1 s2 st))
      as (fuel & st' & Hrun & Hg & Hr & Hl); rewrite ?Hk; try done; try lia.
    { intros s [?| ->%list_elem_of_singleton]%elem_of_app; [by apply Hgood|done]. }
    { destruct Hcopy as (i & x & Hx & Hxeq & Hcase). exists i, x. repeat split; try done.
      - by apply lookup_app_l_Some.
      - destruct Hcase; [by left|right; lia]. }
    exists fuel, st'. rewrite Hk in Hr, Hl.
    split; [done|]. split; [done|]. split; [lia|]. intros Hsame'. lia.
Qed.

Lemma infer_outer_terminates (r : nat) :
  ∀ (d : nat) i st,
    good g u (knowledge st) →
    (room u (knowledge st) ≤ r)%nat → (length (knowledge st) ≤ i + d)%nat →
    ∃ fuel st', infer_outer fuel i st = Some st'.
Proof.
  induction r as [r IHr] using lt_wf_ind.
  induction d as [|d IHd]; intros i st Hgood Hroom Hlen.
  { exists 1%nat, st. simpl. rewrite lookup_ge_None_2 by lia. done. }
  destruct (knowledge st !! i) as [s1|] eqn:Hs1; [|exists 1%nat, st; simpl; by rewrite Hs1].
  assert (Hin1 : s1 ∈ knowledge st) by (by eapply list_elem_of_lookup_2).
  destruct (Hgood s1 Hin1) as [Hhold1 Hsub1].
  destruct (infer_inner_terminates (room u (knowledge st)) (length (knowledge st)) s1 0 st)
    as (fuel1 & st1 & Hrun1 & Hg1 & Hr1 & Hl1); try done; try lia.
  { exists i, s1. repeat split; try done; [by apply eqb_spec|by left]. }
  assert (Hrest : ∃ fuel2 st', infer_outer fuel2 (S i) st1 = Some st').
  { destruct (decide (room u (knowledge st1) = room u (knowledge st))) as [Heq|Hne].
    - apply (IHd (S i) st1); [done|lia|]. specialize (Hl1 Heq). lia.
    - apply (IHr (room u (knowledge st1)) ltac:(lia) (length (knowledge st1)) (S i) st1);
        [done|lia|lia]. }
  destruct Hrest as (fuel2 & st' & Hrun2).
  exists (S (Nat.max fuel1 fuel2)), st'. simpl. rewrite Hs1.
  rewrite (infer_inner_fuel_mono fuel1 _ s1 0 st st1) by (done || lia).
  apply (infer_outer_fuel_mono fuel2); [lia|done].
Qed.
End termination.

Lemma all_cells_spec k s : s ∈ k → Sentence.cells s ⊆ all_cells k.
Proof.
  intros Hs c Hc. unfold all_cells. apply elem_of_union_list.
  exists (Sentence.cells s). split; [|done]. apply list_elem_of_fmap. eauto.
Qed.

Lemma add_knowledge_terminates g cell st :
  sound g st → safe_probe g cell →
  ∃ fuel st', add_knowledge fuel cell (Minesweeper.nearby_mines g cell) st = Some st'.
Proof.
  intros Hst Hcell. unfold add_knowledge.
  pose proof (sound_add_knowledge_head g cell st Hcell Hst) as Hhead.
  set (st0 := add_knowledge_head _ _ _) in *.
  destruct (infer_outer_terminates g (all_cells (knowledge st0))
              (room (all_cells (knowledge st0)) (knowledge st0))
              (length (knowledge st0)) 0 st0) as (fuel & st1 & Hrun); try lia.
  { intros s Hs. split; [by apply Hhead|by apply all_cells_spec]. }
  exists fuel. rewrite Hrun. eauto.
Qed.

Lemma add_knowledge_seq_fuel_mono fuel fuel' obs st st' :
  (fuel ≤ fuel')%nat → add_knowledge_seq fuel obs st = Some st' →
  add_knowledge_seq fuel' obs st = Some st'.
Proof.
  intros Hle. revert st. induction obs as [|[cell count] obs IH]; intros st; simpl; [done|].
  destruct (add_knowledge fuel cell count st) as [st1|] eqn:Hadd; [|done].
  rewrite (add_knowledge_fuel_mono fuel fuel' cell count st st1) by done. apply IH.
Qed.

Lemma add_knowledge_seq_terminates g probes st :
  sound g st → Forall (safe_probe g) probes →
  ∃ fuel st', add_knowledge_seq fuel (observe g <$> probes) st = Some st'.
Proof.
  intros Hst Hprobes. revert st Hst.
  induction Hprobes as [|cell probes Hcell _ IH]; intros st Hst; simpl.
  - by exists 0%nat, st.
  - destruct (add_knowledge_terminates g cell st Hst Hcell) as (fuel1 & st1 & Hadd).
    destruct (IH st1) as (fuel2 & st' & Hseq); [by eapply sound_add_knowledge|].
    exists (Nat.max fuel1 fuel2), st'.
    rewrite (add_knowledge_fuel_mono fuel1 _ _ _ st st1) by (done || lia).
    apply (add_knowledge_seq_fuel_mono fuel2); [lia|done].
Qed.


(** ** A run of step 5 that only appends *)

Lemma stuck_inner fuel :
  ∀ j st, stuck_at j st → infer_inner fuel stuck_sentence j st = None.
Proof.
  induction fuel as [|fuel IH]; intros j st (s2 & Hs2 & Hlen & Hoid & Hnext & Hcells & Hcount & Hmin);
    simpl; [done|].
  rewrite Hs2. apply IH. unfold infer_step, new_sentence. simpl.
  rewrite bool_decide_false by done.
  assert (Sentence.eqb stuck_sentence s2 = false) as ->.
  { apply not_true_is_false. rewrite eqb_spec. simpl. lia. }
  rewrite bool_decide_true by (simpl; set_solver).
  set (new := {| Sentence.oid := next_oid st |}).
  assert (list_contains new (knowledge st) = false) as ->.
  { apply not_true_is_false. intros (y & Hy & [_ Heq]%eqb_spec)%list_contains_spec.
    specialize (Hmin y Hy). simpl in Heq. lia. }
  simpl. exists new. split; [|split; [|split; [|split; [|split; [|split]]]]]; simpl.
  - rewrite lookup_app_r by lia. by rewrite Hlen, Nat.sub_diag.
  - rewrite length_app. simpl. lia.
  - lia.
  - lia.
  - rewrite Hcells. set_solver.
  - lia.
  - intros y [Hy| ->%list_elem_of_singleton]%elem_of_app; [|done].
    specialize (Hmin y Hy). lia.
Qed.


(** ** The marking operations commute *)

Lemma foldl_commute_perm {A B : Type} (f : A → B → A) (l l' : list B) :
  (∀ a x y, f (f a x) y = f (f a y) x) →
  l ≡ₚ l' → ∀ a, foldl f a l = foldl f a l'.
Proof.
  intros Hf. induction 1 as [|x l l' _ IH|x y l|l1 l2 l3 _ IH1 _ IH2]; intros a; simpl.
  - done.
  - apply IH.
  - by rewrite Hf.
  - by rewrite IH1.
Qed.

Lemma sentence_mark_safe_commute a b s :
  Sentence.mark_safe a (Sentence.mark_safe b s) = Sentence.mark_safe b (Sentence.mark_safe a s).
Proof.
  unfold Sentence.mark_safe.
  destruct (decide (a ∈ Sentence.cells s)) as [Ha|Ha];
    destruct (decide (b ∈ Sentence.cells s)) as [Hb|Hb];
    rewrite ?(bool_decide_true _ Ha), ?(bool_decide_false _ Ha),
      ?(bool_decide_true _ Hb), ?(bool_decide_false _ Hb); simpl;
    repeat case_bool_decide; apply sentence_eq; simpl; try done; set_solver.
Qed.

Lemma sentence_mark_mine_commute a b s :
  Sentence.mark_mine a (Sentence.mark_mine b s) = Sentence.mark_mine b (Sentence.mark_mine a s).
Proof.
  destruct (decide (a = b)) as [->|Hne]; [done|]. unfold Sentence.mark_mine.
  destruct (decide (a ∈ Sentence.cells s)) as [Ha|Ha];
    destruct (decide (b ∈ Sentence.cells s)) as [Hb|Hb];
    repeat (case_bool_decide; simpl in *); apply sentence_eq; simpl; try done;
    try lia; set_solver.
Qed.

Lemma mark_safe_commute a b st : mark_safe a (mark_safe b st) = mark_safe b (mark_safe a st).
Proof.
  unfold mark_safe. simpl. f_equal; [set_solver|].
  rewrite <-!list_fmap_compose. apply list_fmap_ext. intros _ s _.
  apply sentence_mark_safe_commute.
Qed.

Lemma mark_mine_commute a b st : mark_mine a (mark_mine b st) = mark_mine b (mark_mine a st).
Proof.
  unfold mark_mine. simpl. f_equal; [set_solver|].
  rewrite <-!list_fmap_compose. apply list_fmap_ext. intros _ s _.
  apply sentence_mark_mine_commute.
Qed.


(** ** The claims *)

(** Claim C1 (soundness).  A fresh engine is fed the true neighbouring-mine
    counts of a sequence of probed cells of the board; as the docstring of
    [add_knowledge] has it, a count is reported for a safe cell: none of the
    probed cells is a mine.  The calls of [add_knowledge] return, and in the
    state they return every cell in [self.mines] is a mine of the board and
    every cell in [self.safes] is not.  The sequence is any such sequence,
    so this holds after every call; that the cells are probed at most once
    is not needed. *)
Theorem engine_sound_for_safe_probes g probes :
  Forall (safe_probe g) probes →
  (∃ fuel st, play fuel g probes = Some st)
  ∧ ∀ fuel st, play fuel g probes = Some st →
      (∀ c, c ∈ mines st → Minesweeper.is_mine g c = true)
      ∧ (∀ c, c ∈ safes st → Minesweeper.is_mine g c = false).
Proof.
  intros Hprobes. split.
  - by apply add_knowledge_seq_terminates; [apply sound_init|].
  - intros fuel st Hplay. destruct (sound_play g fuel probes st Hprobes Hplay). done.
Qed.

Lemma engine_sound_for_safe_probes_witness :
  (∃ fuel st, play fuel grid_1x4 [(0, 0); (0, 2)] = Some st)
  ∧ ∀ fuel st, play fuel grid_1x4 [(0, 0); (0, 2)] = Some st →
      (∀ c, c ∈ mines st → Minesweeper.is_mine grid_1x4 c = true)
      ∧ (∀ c, c ∈ safes st → Minesweeper.is_mine grid_1x4 c = false).
Proof.
  apply (engine_sound_for_safe_probes grid_1x4 [(0, 0); (0, 2)]).
  repeat constructor; simpl; lia.
Defined.

(** That the probed cells hold no mine is needed for the soundness of
    [self.safes]: [add_knowledge] marks the probed cell safe (line 288)
    whatever it holds.  On the board of one cell that is a mine, a call for
    that cell with the count 0 of its neighbourhood puts the mine into
    [self.safes]. *)
Lemma probed_mine_is_marked_safe :
  ∃ st, play 3 grid_1x1 [(0, 0)] = Some st
    ∧ in_bounds grid_1x1 (0, 0)
    ∧ (0, 0) ∈ safes st
    ∧ Minesweeper.is_mine grid_1x1 (0, 0) = true.
Proof.
  eexists. split; [vm_compute; reflexivity|].
  split; [unfold in_bounds; simpl; lia|]. split; [|reflexivity].
  apply (bool_decide_unpack _). vm_compute. exact I.
Qed.

(** Claim C7 (count range).  When a fresh engine has been fed the true
    counts of probed mine-free cells of one board, every sentence of the
    knowledge base has, each time [add_knowledge] returns,
    [0 <= count <= len(cells)]. *)
Theorem counts_stay_in_range fuel g probes st :
  Forall (safe_probe g) probes →
  play fuel g probes = Some st →
  ∀ s, s ∈ knowledge st → 0 ≤ Sentence.count s ≤ Z.of_nat (size (Sentence.cells s)).
Proof.
  intros Hprobes Hplay s Hs. apply (holds_on_count_range g).
  by apply (sound_play g fuel probes st Hprobes Hplay).
Qed.



(** Claim C6 (the code at the failing input).  Board: three rows of three
    cells, a mine at (0, 0); observations ((2, 2), 0), ((1, 1), 1) and
    ((0, 1), 1), all true.  When the third call returns, the knowledge base
    holds the sentence [{(0,0), (0,2), (1,0)} = 1] twice and the sentence
    [set() = 0] twice: the equal sentences arise in the marking loops that
    follow step 5, after the only place where duplicates are removed. *)
Theorem equal_sentences_coexist :
  ∃ st, play 20 grid_3x3 [(2, 2); (1, 1); (0, 1)] = Some st
    ∧ contents <$> knowledge st
      = [(∅, 0); ({[(0, 0); (0, 2); (1, 0)]}, 1); ({[(0, 0); (0, 2); (1, 0)]}, 1); (∅, 0)].
Proof. eexists. split; vm_compute; reflexivity. Qed.

(** Claim C2 (as amended).  [MinesweeperAI.mark_mine(cell)] adds the cell to
    [self.mines] and leaves it in, or adds it to, the cell set of every
    sentence: a sentence that contains the cell is unchanged, and a sentence
    that does not contain it gets the cell added and its count incremented
    by one. *)
Theorem mark_mine_adds_cell cell st :
  mines (mark_mine cell st) = mines st ∪ {[cell]}
  ∧ Forall2 (λ s s',
        cell ∈ Sentence.cells s'
        ∧ (cell ∈ Sentence.cells s → s' = s)
        ∧ (cell ∉ Sentence.cells s →
           Sentence.cells s' = Sentence.cells s ∪ {[cell]}
           ∧ Sentence.count s' = Sentence.count s + 1))
      (knowledge st) (knowledge (mark_mine cell st)).
Proof.
  split; [done|]. simpl. apply Forall2_fmap_r, Forall_Forall2_diag.
  apply Forall_forall. intros s _. unfold Sentence.mark_mine, compose.
  case_bool_decide as Hin; simpl.
  - split; [set_solver|]. done.
  - done.
Qed.

(** Claim C2 as stated fails.  Board: one row of four cells, a mine at
    (0, 1).  The observation ((0, 0), 1) makes the marking loop call
    [mark_mine((0, 1))]; in the returned state (0, 1) is in [self.mines] and
    still in the cell set of the sentence [{(0,1)} = 1], whose count is
    still 1; marking (0, 1) once more changes neither. *)
Lemma marked_mine_stays_in_sentence :
  ∃ st, play 3 grid_1x4 [(0, 0)] = Some st
    ∧ mines st = {[(0, 1)]}
    ∧ contents <$> knowledge st = [({[(0, 1)]}, 1)]
    ∧ contents <$> knowledge (mark_mine (0, 1) st) = [({[(0, 1)]}, 1)].
Proof. eexists. split; [vm_compute; reflexivity|]. repeat split; vm_compute; reflexivity. Qed.

(** Claim C9.  [make_safe_move] leaves the engine as it was; when
    [self.safes - self.moves_made] is not empty it returns a cell of
    [self.safes] that is not in [self.moves_made], and when that set is empty
    it returns [None].  This holds for every admissible behaviour of
    [set.pop()]. *)
Theorem make_safe_move_correct pop st :
  (make_safe_move pop st).2 = st
  ∧ (safes st ∖ moves_made st ≠ ∅ →
     ∃ c, (make_safe_move pop st).1 = Some c ∧ c ∈ safes st ∧ c ∉ moves_made st)
  ∧ (safes st ∖ moves_made st = ∅ → (make_safe_move pop st).1 = None).
Proof.
  unfold make_safe_move. simpl. split; [done|]. split.
  - intros Hne. pose proof (set_pop_elem pop _ Hne) as Hpop.
    rewrite bool_decide_true.
    + eexists. split; [done|]. by apply elem_of_difference in Hpop.
    + assert (size (safes st ∖ moves_made st) ≠ 0%nat); [|lia].
      apply size_non_empty_iff. by intros ?%leibniz_equiv.
  - intros ->. by rewrite size_empty.
Qed.

(** Claim C4 (as amended).  The sentence of a probe is appended whatever its
    cell set is, and a sentence whose cell set has become empty stays in the
    knowledge base (sentences are only removed as duplicates).  In
    particular, when the knowledge base is empty, an observation with count
    0 of any cell returns with a knowledge base of exactly one sentence,
    whose cell set is empty and whose count is 0. *)
Theorem first_zero_count_leaves_empty_sentence n cell st :
  knowledge st = [] →
  ∃ st', add_knowledge (3 + n) cell 0 st = Some st'
    ∧ contents <$> knowledge st' = [(∅, 0)].
Proof.
  intros Hk. unfold add_knowledge, add_knowledge_head, new_sentence.
  rewrite bool_decide_true by done.
  set (surrounding := get_surrounding_cells st cell).
  set (s0 := {| Sentence.oid := _; Sentence.cells := surrounding; Sentence.count := 0 |}).
  set (st0 := set_knowledge _ _).
  assert (Hst0 : knowledge st0 = [s0]) by (unfold st0; simpl; by rewrite Hk).
  clearbody st0.
  rewrite (mark_known_mines_nothing st0)
    by (intros s; rewrite Hst0; intros ->%list_elem_of_singleton; by apply known_mines_zero).
  assert (Hsafes : mark_known_safes st0 = for_set surrounding mark_safe st0).
  { unfold mark_known_safes. rewrite Hst0. simpl. rewrite Hst0. simpl.
    unfold Sentence.known_safes. simpl. done. }
  rewrite Hsafes. set (st1 := for_set _ mark_safe (for_set _ mark_safe _)).
  set (s1 := without surrounding (without surrounding s0)).
  assert (Hst1 : knowledge st1 = [s1]).
  { unfold st1. by rewrite !for_set_mark_safe_knowledge, Hst0. }
  assert (Hcells : Sentence.cells s1 = ∅) by (simpl; set_solver).
  rewrite (infer_outer_single n s1) by done.
  eexists. split; [done|]. unfold add_knowledge_tail.
  rewrite (mark_known_mines_nothing st1)
    by (intros s; rewrite Hst1; intros ->%list_elem_of_singleton; by apply known_mines_zero).
  rewrite (mark_known_safes_nothing st1).
  - rewrite Hst1. unfold contents. cbn [fmap list_fmap]. by rewrite Hcells.
  - intros s. rewrite Hst1. intros ->%list_elem_of_singleton.
    unfold Sentence.known_safes. rewrite Hcells. by destruct (bool_decide _).
Qed.


(** Claim C4 as stated fails.  On a board of one cell the probed cell has no
    neighbour at all, and the observation ((0, 0), 0) still appends the
    sentence [set() = 0], which is in the knowledge base when the call
    returns.  On a fresh engine for three rows of three cells, the
    observation ((2, 2), 0) marks the three neighbours safe and removes them
    from the sentence of the probe, and the call returns with [set() = 0] in
    the knowledge base; the next observation, ((1, 1), 1), leaves it
    there. *)
Lemma add_knowledge_keeps_empty_sentence :
  (∃ st, get_surrounding_cells (init 1 1) (0, 0) = ∅
     ∧ add_knowledge 3 (0, 0) 0 (init 1 1) = Some st
     ∧ contents <$> knowledge st = [(∅, 0)])
  ∧ (∃ st st', play 20 grid_3x3 [(2, 2)] = Some st
       ∧ play 20 grid_3x3 [(2, 2); (1, 1)] = Some st'
       ∧ contents <$> knowledge st = [(∅, 0)]
       ∧ contents <$> knowledge st'
         = [(∅, 0); ({[(0, 0); (0, 1); (0, 2); (1, 0); (2, 0)]}, 1)]).
Proof.
  split.
  - eexists. split; [vm_compute; reflexivity|]. split; vm_compute; reflexivity.
  - do 2 eexists. split; [vm_compute; reflexivity|]. split; [vm_compute; reflexivity|].
    split; vm_compute; reflexivity.
Qed.

(** Claim C10 (the code at the failing input).  On a fresh engine for a
    board of one row and two cells both cells are candidates, yet any number
    of consecutive calls of [make_random_move] return one and the same cell:
    the move is [cells.pop()] on a set built the same way each time, and no
    random source is consulted. *)
Theorem make_random_move_repeats pop n :
  random_moves pop n (init 1 2) = replicate n (Some (set_pop pop {[(0, 0); (0, 1)]})).
Proof.
  assert (Hmove : make_random_move pop (init 1 2)
                  = (Some (set_pop pop {[(0, 0); (0, 1)]}), init 1 2)).
  { unfold make_random_move.
    set (cells := collect_cells _ _ _).
    assert (cells = {[(0, 0); (0, 1)]}) as -> by (vm_compute; reflexivity).
    rewrite bool_decide_false; [done|]. vm_compute. lia. }
  induction n as [|n IH]; simpl; [done|]. rewrite Hmove. by rewrite IH.
Qed.

(** The part of claim C10 that holds: [make_random_move] leaves the engine
    as it was, a returned cell is a cell of the grid that is neither in
    [self.moves_made] nor in [self.mines], and [None] is returned exactly
    when there is no such cell. *)
Lemma make_random_move_candidate pop st :
  (make_random_move pop st).2 = st
  ∧ (∀ c, (make_random_move pop st).1 = Some c →
       ((0 ≤ c.1 < height st) ∧ (0 ≤ c.2 < width st))
       ∧ (c ∉ moves_made st) ∧ (c ∉ mines st))
  ∧ ((make_random_move pop st).1 = None ↔
       ∀ c, 0 ≤ c.1 < height st → 0 ≤ c.2 < width st → c ∈ moves_made st ∨ c ∈ mines st).
Proof.
  unfold make_random_move.
  set (cells := collect_cells _ _ _).
  assert (Hcells : ∀ c, c ∈ cells ↔
            ((0 ≤ c.1 < height st) ∧ (0 ≤ c.2 < width st))
       ∧ (c ∉ moves_made st) ∧ (c ∉ mines st)).
  { intros c. unfold cells, range. rewrite elem_of_collect_cells, !elem_of_seqZ.
    rewrite andb_true_iff, !bool_decide_eq_true. split; [intros (?&?&?&?)|intros ((?&?)&?&?)];
      repeat split; try done; lia. }
  case_bool_decide as Hsize; simpl.
  - split; [done|]. split; [done|]. split; [|done]. intros _ c Hi Hj.
    apply size_empty_inv, leibniz_equiv in Hsize.
    destruct (decide (c ∈ moves_made st)); [by left|].
    destruct (decide (c ∈ mines st)); [by right|].
    exfalso. eapply (not_elem_of_empty (C:=gset Cell) c). rewrite <-Hsize. by apply Hcells.
  - split; [done|]. assert (Hne : cells ≠ ∅) by (intros ->; by rewrite size_empty in Hsize).
    pose proof (set_pop_elem pop _ Hne) as Hpop. split.
    + intros c [= <-]. by apply Hcells.
    + split; [done|]. intros Hall. exfalso.
      apply Hcells in Hpop as ((Hi & Hj) & Hm & Hn). destruct (Hall _ Hi Hj); done.
Qed.

(** Claim C8 (as amended).  When a fresh engine is fed the true counts of
    probed mine-free cells of one board, every call of [add_knowledge]
    returns: some bound on the number of iterations of step 5 is large
    enough for the whole sequence of calls. *)
Theorem add_knowledge_returns_on_true_counts g probes :
  Forall (safe_probe g) probes → ∃ fuel st, play fuel g probes = Some st.
Proof. intros Hprobes. by apply add_knowledge_seq_terminates; [apply sound_init|]. Qed.

Lemma add_knowledge_returns_on_true_counts_witness :
  ∃ fuel st, play fuel grid_3x3 [(2, 2); (1, 1); (0, 1)] = Some st.
Proof.
  apply add_knowledge_returns_on_true_counts.
  repeat constructor; simpl; lia.
Defined.


(** Claim C8 as stated fails.  On a board of one cell,
    [add_knowledge((0, 0), 1)] returns with the sentence [set() = 1] in the
    knowledge base.  A second call [add_knowledge((0, 0), 2)] appends
    [set() = 2]; step 5 then derives [set() = -1], [set() = -3], ... from
    each sentence it has just appended, and no bound on the number of
    iterations is enough for the call to return. *)
Lemma add_knowledge_can_run_forever :
  add_knowledge 3 (0, 0) 1 (init 1 1) = Some stuck_start
  ∧ ∀ fuel, add_knowledge fuel (0, 0) 2 stuck_start = None.
Proof.
  split; [vm_compute; reflexivity|]. intros fuel. unfold add_knowledge.
  set (a := {| Sentence.oid := 0; Sentence.cells := ∅; Sentence.count := 1 |}).
  set (h0 := {| height := 1; width := 1; moves_made := {[(0, 0)]}; mines := ∅;
                safes := {[(0, 0)]}; knowledge := [a; stuck_sentence]; next_oid := 2 |}).
  assert (add_knowledge_head (0, 0) 2 stuck_start = h0) as -> by (vm_compute; reflexivity).
  set (h1 := {| height := 1; width := 1; moves_made := {[(0, 0)]}; mines := ∅;
                safes := {[(0, 0)]}; knowledge := [a; stuck_sentence]; next_oid := 3 |}).
  assert (Hskip : infer_step a a h0 = h0) by (vm_compute; reflexivity).
  assert (Hsame : infer_step a stuck_sentence h0 = h1) by (vm_compute; reflexivity).
  set (new := {| Sentence.oid := 3; Sentence.cells := ∅; Sentence.count := -1 |}).
  set (h2 := {| height := 1; width := 1; moves_made := {[(0, 0)]}; mines := ∅;
                safes := {[(0, 0)]}; knowledge := [a; stuck_sentence; new]; next_oid := 4 |}).
  assert (Happ : infer_step stuck_sentence a h1 = h2) by (vm_compute; reflexivity).
  assert (Hskip2 : infer_step stuck_sentence stuck_sentence h2 = h2) by (vm_compute; reflexivity).
  assert (Hstuck : stuck_at 2 h2).
  { exists new. simpl. repeat split; try done; try lia.
    intros y Hy. repeat (apply elem_of_cons in Hy as [->|Hy]); simpl; try lia.
    by apply elem_of_nil in Hy. }
  destruct fuel as [|fuel]; [done|]. cbn [infer_outer knowledge h0 lookup list_lookup].
  assert (Hinner : infer_inner fuel a 0 h0 = None ∨ infer_inner fuel a 0 h0 = Some h1).
  { destruct fuel as [|fuel]; [by left|]. cbn [infer_inner knowledge h0 lookup list_lookup].
    rewrite Hskip. destruct fuel as [|fuel]; [by left|].
    cbn [infer_inner knowledge h0 lookup list_lookup]. rewrite Hsame.
    destruct fuel as [|fuel]; [by left|]. by right. }
  destruct Hinner as [->| ->]; [done|].
  destruct fuel as [|fuel]; [done|]. cbn [infer_outer knowledge h1 lookup list_lookup].
  assert (infer_inner fuel stuck_sentence 0 h1 = None) as ->; [|done].
  destruct fuel as [|fuel]; [done|]. cbn [infer_inner knowledge h1 lookup list_lookup].
  rewrite Happ. destruct fuel as [|fuel]; [done|].
  cbn [infer_inner knowledge h2 lookup list_lookup]. rewrite Hskip2.
  by apply stuck_inner.
Qed.

(** ** Further properties *)

(** The order in which a [for] loop visits the cells of a set does not
    matter for the marking loops of the engine: marking the cells of a set
    safe, or as mines, in any order gives the state that [for_set] gives. *)
Theorem marking_order_is_irrelevant (cells : gset Cell) (order : list Cell) st :
  order ≡ₚ elements cells →
  foldl (λ acc c, mark_safe c acc) st order = for_set cells mark_safe st
  ∧ foldl (λ acc c, mark_mine c acc) st order = for_set cells mark_mine st.
Proof.
  intros Hperm. unfold for_set. split; apply foldl_commute_perm; try done.
  - intros a x y. apply mark_safe_commute.
  - intros a x y. apply mark_mine_commute.
Qed.

Lemma marking_order_is_irrelevant_witness :
  foldl (λ acc c, mark_safe c acc) stuck_start [(0, 1); (0, 0)]
  = for_set {[(0, 0); (0, 1)]} mark_safe stuck_start
  ∧ foldl (λ acc c, mark_mine c acc) stuck_start [(0, 1); (0, 0)]
    = for_set {[(0, 0); (0, 1)]} mark_mine stuck_start.
Proof.
  apply (marking_order_is_irrelevant {[(0, 0); (0, 1)]} [(0, 1); (0, 0)] stuck_start).
  apply NoDup_Permutation.
  - repeat constructor; rewrite ?elem_of_cons, ?elem_of_nil; intros Hin; naive_solver.
  - apply NoDup_elements.
  - intros c. rewrite elem_of_elements. set_solver.
Defined.

Lemma for_set_mark_safe_safes cells st :
  safes (for_set cells mark_safe st) = safes st ∪ cells.
Proof.
  unfold for_set. rewrite <-(list_to_set_elements_L cells) at 2.
  generalize (elements cells) as l. intros l. revert st.
  induction l as [|c l IH]; intros st; simpl; [set_solver|].
  rewrite IH. simpl. set_solver.
Qed.

Lemma mark_known_safes_from_grows n i st :
  safes st ⊆ safes (mark_known_safes_from n i st).
Proof.
  apply (mark_known_safes_from_inv (λ a, safes st ⊆ safes a) (λ _, True)); [done| |done].
  intros a c _ Ha. simpl. set_solver.
Qed.

Lemma mark_known_mines_from_grows n i st :
  mines st ⊆ mines (mark_known_mines_from n i st).
Proof.
  apply (mark_known_mines_from_inv (λ a, mines st ⊆ mines a) (λ _, True)); [done| |done].
  intros a c _ Ha. simpl. set_solver.
Qed.

Lemma zero_count_visited (cells0 : gset Cell) (p : nat) :
  ∀ n i st s,
    knowledge st !! p = Some s → Sentence.count s = 0 →
    cells0 ⊆ Sentence.cells s ∪ safes st →
    (i ≤ p < i + n)%nat →
    cells0 ⊆ safes (mark_known_safes_from n i st).
Proof.
  induction n as [|n IH]; intros i st s Hs Hzero Hcells Hp; [lia|]. simpl.
  destruct (knowledge st !! i) as [si|] eqn:Hsi.
  2: { apply lookup_ge_None in Hsi. apply lookup_lt_Some in Hs. lia. }
  destruct (decide (i = p)) as [->|Hne].
  - rewrite Hs in Hsi. injection Hsi as <-.
    etrans; [|apply mark_known_safes_from_grows]. rewrite for_set_mark_safe_safes.
    unfold Sentence.known_safes. rewrite bool_decide_true by done. set_solver.
  - apply (IH (S i) _ (without (Sentence.known_safes si) s)); [|done| |lia].
    + by rewrite for_set_mark_safe_knowledge, list_lookup_fmap, Hs.
    + rewrite for_set_mark_safe_safes. simpl. intros c Hc. apply Hcells in Hc.
      destruct (decide (c ∈ Sentence.known_safes si)); set_solver.
Qed.

(** Zero-count closure.  After the loop of lines 297-299 (and 325-327),
    every cell of a sentence that had count 0 when the loop started is in
    [self.safes]. *)
Theorem zero_count_cells_become_safe st s :
  s ∈ knowledge st → Sentence.count s = 0 →
  Sentence.cells s ⊆ safes (mark_known_safes st).
Proof.
  intros (p & Hp)%list_elem_of_lookup Hzero. unfold mark_known_safes.
  apply (zero_count_visited (Sentence.cells s) p _ 0 st s); [done|done|set_solver|].
  apply lookup_lt_Some in Hp. lia.
Qed.

Lemma full_count_mark_mine c s :
  Sentence.count s = Z.of_nat (size (Sentence.cells s)) →
  Sentence.count (Sentence.mark_mine c s)
  = Z.of_nat (size (Sentence.cells (Sentence.mark_mine c s)))
  ∧ Sentence.cells s ⊆ Sentence.cells (Sentence.mark_mine c s)
  ∧ Sentence.count s ≤ Sentence.count (Sentence.mark_mine c s).
Proof.
  intros Hfull. unfold Sentence.mark_mine. case_bool_decide as Hin; simpl; [|done].
  rewrite size_union, size_singleton by set_solver. split; [lia|]. split; [set_solver|lia].
Qed.

Lemma full_count_for_set_mark_mine (cells0 marked : gset Cell) (p : nat) st s :
  knowledge st !! p = Some s →
  Sentence.count s = Z.of_nat (size (Sentence.cells s)) → Sentence.count s > 0 →
  cells0 ⊆ Sentence.cells s ∪ mines st →
  ∃ s', knowledge (for_set marked mark_mine st) !! p = Some s'
    ∧ Sentence.count s' = Z.of_nat (size (Sentence.cells s')) ∧ Sentence.count s' > 0
    ∧ cells0 ⊆ Sentence.cells s' ∪ mines (for_set marked mark_mine st)
    ∧ mines st ⊆ mines (for_set marked mark_mine st).
Proof.
  intros Hs Hfull Hpos Hcells.
  apply (for_set_inv (λ a, ∃ s', knowledge a !! p = Some s'
    ∧ Sentence.count s' = Z.of_nat (size (Sentence.cells s')) ∧ Sentence.count s' > 0
    ∧ cells0 ⊆ Sentence.cells s' ∪ mines a ∧ mines st ⊆ mines a)).
  - exists s. done.
  - intros c a _ (s' & Hs' & Hfull' & Hpos' & Hcells' & Hmines).
    destruct (full_count_mark_mine c s' Hfull') as (Hf & Hsub & Hle).
    exists (Sentence.mark_mine c s'). simpl. rewrite list_lookup_fmap, Hs'. simpl.
    split; [done|]. split; [done|]. split; [lia|]. split; set_solver.
Qed.

Lemma for_set_mark_mine_mines cells st :
  mines (for_set cells mark_mine st) = mines st ∪ cells.
Proof.
  unfold for_set. rewrite <-(list_to_set_elements_L cells) at 2.
  generalize (elements cells) as l. intros l. revert st.
  induction l as [|c l IH]; intros st; simpl; [set_solver|].
  rewrite IH. simpl. set_solver.
Qed.

Lemma full_count_visited (cells0 : gset Cell) (p : nat) :
  ∀ n i st s,
    knowledge st !! p = Some s →
    Sentence.count s = Z.of_nat (size (Sentence.cells s)) → Sentence.count s > 0 →
    cells0 ⊆ Sentence.cells s ∪ mines st →
    (i ≤ p < i + n)%nat →
    cells0 ⊆ mines (mark_known_mines_from n i st).
Proof.
  induction n as [|n IH]; intros i st s Hs Hfull Hpos Hcells Hp; [lia|]. simpl.
  destruct (knowledge st !! i) as [si|] eqn:Hsi.
  2: { apply lookup_ge_None in Hsi. apply lookup_lt_Some in Hs. lia. }
  destruct (decide (i = p)) as [->|Hne].
  - rewrite Hs in Hsi. injection Hsi as <-.
    etrans; [|apply mark_known_mines_from_grows]. rewrite for_set_mark_mine_mines.
    unfold Sentence.known_mines. rewrite !bool_decide_true by done. simpl. set_solver.
  - destruct (full_count_for_set_mark_mine cells0 (Sentence.known_mines si) p st s)
      as (s' & Hs' & Hfull' & Hpos' & Hcells' & _); try done.
    apply (IH (S i) _ s'); try done. lia.
Qed.

(** Full-count closure.  After the loop of lines 293-295 (and 321-323),
    every cell of a sentence whose count was positive and equal to the size
    of its cell set when the loop started is in [self.mines]. *)
Theorem full_count_cells_become_mines st s :
  s ∈ knowledge st →
  Sentence.count s = Z.of_nat (size (Sentence.cells s)) → Sentence.count s > 0 →
  Sentence.cells s ⊆ mines (mark_known_mines st).
Proof.
  intros (p & Hp)%list_elem_of_lookup Hfull Hpos. unfold mark_known_mines.
  apply (full_count_visited (Sentence.cells s) p _ 0 st s); [done|done|done|set_solver|].
  apply lookup_lt_Some in Hp. lia.
Qed.

(** The result of [add_knowledge] does not depend on the bound on the
    number of iterations: two bounds that both suffice give the same
    state. *)
Theorem add_knowledge_result_unique fuel fuel' cell count st st1 st2 :
  add_knowledge fuel cell count st = Some st1 →
  add_knowledge fuel' cell count st = Some st2 →
  st1 = st2.
Proof.
  intros H1 H2.
  apply (add_knowledge_fuel_mono fuel (Nat.max fuel fuel')) in H1; [|lia].
  apply (add_knowledge_fuel_mono fuel' (Nat.max fuel fuel')) in H2; [|lia].
  congruence.
Qed.



(** ** The neighbourhood of a cell *)

Lemma elem_of_around cell p :
  p ∈ around cell ↔
  p ≠ cell ∧ (cell.1 - 1 ≤ p.1 ≤ cell.1 + 1) ∧ (cell.2 - 1 ≤ p.2 ≤ cell.2 + 1).
Proof.
  unfold around. rewrite list_elem_of_fmap. unfold steps.
  destruct cell as [r c], p as [i j]. cbn [fst snd]. split.
  - intros ([di dj] & [= -> ->] & Hd). cbn [fst snd] in *.
    repeat (apply elem_of_cons in Hd as [[= -> ->]|Hd]); try (by apply elem_of_nil in Hd).
    all: split; [intros [= ? ?]; lia|lia].
  - intros (Hne & Hi & Hj). exists (i - r, j - c). cbn [fst snd]. split; [f_equal; lia|].
    assert (Hdi : i - r = -1 ∨ i - r = 0 ∨ i - r = 1) by lia.
    assert (Hdj : j - c = -1 ∨ j - c = 0 ∨ j - c = 1) by lia.
    destruct Hdi as [Hdi|[Hdi|Hdi]], Hdj as [Hdj|[Hdj|Hdj]];
      rewrite Hdi, Hdj, ?elem_of_cons; try tauto.
    exfalso. apply Hne. f_equal; lia.
Qed.

Lemma NoDup_around cell : NoDup (around cell).
Proof.
  unfold around. apply NoDup_fmap_2.
  - intros [a b] [a' b'] [= ? ?]. f_equal; lia.
  - unfold steps. apply (bool_decide_unpack _). vm_compute. exact I.
Qed.

Lemma elem_of_get_surrounding_cells st cell p :
  p ∈ get_surrounding_cells st cell ↔
  p ∈ around cell ∧ on_grid (height st) (width st) p ∧ p ∉ safes st.
Proof.
  rewrite elem_of_around. unfold get_surrounding_cells, on_grid.
  rewrite elem_of_collect_cells. unfold range. rewrite !elem_of_seqZ.
  rewrite andb_true_iff, !bool_decide_eq_true.
  repeat case_bool_decide; split; intros; destruct_and?; repeat split; try done; lia.
Qed.

(** What [get_surrounding_cells] returns, for any cell, on the grid or not:
    the cells among the eight around it that lie on the grid and are not
    known safe; hence never the cell itself and at most eight cells. *)
Theorem get_surrounding_cells_spec st cell :
  (∀ p, p ∈ get_surrounding_cells st cell ↔
        p ∈ around cell ∧ on_grid (height st) (width st) p ∧ p ∉ safes st)
  ∧ cell ∉ get_surrounding_cells st cell
  ∧ (size (get_surrounding_cells st cell) ≤ 8)%nat.
Proof.
  split; [apply elem_of_get_surrounding_cells|]. split.
  - intros [Hin _]%elem_of_get_surrounding_cells. by apply elem_of_around in Hin as [? _].
  - etrans; [apply (subseteq_size _ (list_to_set (around cell)))|].
    + intros p Hp. apply elem_of_list_to_set.
      by apply elem_of_get_surrounding_cells in Hp as [? _].
    + by rewrite size_list_to_set by apply NoDup_around.
Qed.

Lemma nearby_mines_around g cell :
  Minesweeper.nearby_mines g cell
  = Z.of_nat (length (filter (λ p, on_grid (Minesweeper.height g) (Minesweeper.width g) p
                                   ∧ Minesweeper.is_mine g p = true) (around cell))).
Proof.
  rewrite nearby_mines_length.
  rewrite <-(size_list_to_set (C:=gset Cell))
    by (apply NoDup_filter, NoDup_cell_list; apply NoDup_seqZ).
  rewrite <-(size_list_to_set (C:=gset Cell) (filter _ (around cell)))
    by apply NoDup_filter, NoDup_around.
  do 2 f_equal. apply set_eq. intros p.
  rewrite !elem_of_list_to_set, !list_elem_of_filter, elem_of_cell_list, elem_of_around.
  unfold range. rewrite !elem_of_seqZ. unfold counted, on_grid, Minesweeper.is_mine.
  rewrite !andb_true_iff, negb_true_iff, !bool_decide_eq_true, bool_decide_eq_false.
  split; intros; destruct_and?; repeat split; try done; lia.
Qed.

(** What [nearby_mines] returns, for any board and any cell: the number of
    cells among the eight around the cell that lie on the board and hold a
    mine; the cell itself is not counted and the result is between 0 and
    8. *)
Theorem nearby_mines_spec g cell :
  Minesweeper.nearby_mines g cell
  = Z.of_nat (length (filter (λ p, on_grid (Minesweeper.height g) (Minesweeper.width g) p
                                   ∧ Minesweeper.is_mine g p = true) (around cell)))
  ∧ 0 ≤ Minesweeper.nearby_mines g cell ≤ 8.
Proof.
  split; [apply nearby_mines_around|]. rewrite nearby_mines_around. split; [lia|].
  assert (length (filter (λ p, on_grid (Minesweeper.height g) (Minesweeper.width g) p
                               ∧ Minesweeper.is_mine g p = true) (around cell)) ≤ 8)%nat; [|lia].
  etrans; [apply length_filter|]. unfold around. by rewrite length_fmap.
Qed.

(** ** What the engine keeps, whatever it is told *)

Section tidy.
Variables (h w : Z) (made : gset Cell).

Lemma tidy_mark_safe c st : tidy h w made st → tidy h w made (mark_safe c st).
Proof.
  intros [Hh Hw Hm Hms Hc Hmi]. split; simpl; try done.
  - set_solver.
  - intros s x (s0 & -> & Hs0)%list_elem_of_fmap Hx. apply (Hc s0); [done|].
    unfold Sentence.mark_safe in Hx. case_bool_decide; simpl in Hx; set_solver.
Qed.

Lemma tidy_mark_mine c st :
  on_grid h w c → tidy h w made st → tidy h w made (mark_mine c st).
Proof.
  intros Hin [Hh Hw Hm Hms Hc Hmi]. split; simpl; try done.
  - intros s x (s0 & -> & Hs0)%list_elem_of_fmap Hx.
    unfold Sentence.mark_mine in Hx. case_bool_decide; simpl in Hx; [|by eapply Hc].
    apply elem_of_union in Hx as [Hx| ->%elem_of_singleton]; [by eapply Hc|done].
  - intros x [Hx| ->%elem_of_singleton]%elem_of_union; [by apply Hmi|done].
Qed.

Lemma tidy_mark_known_mines st : tidy h w made st → tidy h w made (mark_known_mines st).
Proof.
  apply (mark_known_mines_from_inv (tidy h w made) (on_grid h w)).
  - intros a s c Ha Hs Hc. apply (tidy_cells _ _ _ _ Ha s); [done|].
    unfold Sentence.known_mines in Hc. destruct (_ && _); set_solver.
  - intros a c. apply tidy_mark_mine.
Qed.

Lemma tidy_mark_known_safes st : tidy h w made st → tidy h w made (mark_known_safes st).
Proof.
  apply (mark_known_safes_from_inv (tidy h w made) (λ _, True)); [done|].
  intros a c _. apply tidy_mark_safe.
Qed.

Lemma tidy_infer_step s1 s2 st :
  (∀ c, c ∈ Sentence.cells s2 → on_grid h w c) →
  tidy h w made st → tidy h w made (infer_step s1 s2 st).
Proof.
  intros Hs2 [Hh Hw Hm Hms Hc Hmi]. unfold infer_step, new_sentence. simpl.
  destruct (bool_decide (Sentence.oid s1 = _)); [done|].
  destruct (Sentence.eqb s1 s2).
  { split; simpl; try done. intros s c Hs. eapply Hc, elem_of_list_remove, Hs. }
  case_bool_decide as Hsub; [|done].
  destruct (negb _); split; simpl; try done.
  intros s c [?| ->%list_elem_of_singleton]%elem_of_app; [by eapply Hc|].
  simpl. intros [? _]%elem_of_difference. by apply Hs2.
Qed.

Lemma tidy_infer_outer fuel i st st' :
  tidy h w made st → infer_outer fuel i st = Some st' → tidy h w made st'.
Proof.
  apply (infer_outer_inv (tidy h w made) (λ s, ∀ c, c ∈ Sentence.cells s → on_grid h w c)).
  - intros a s Ha Hs c. by apply (tidy_cells _ _ _ _ Ha).
  - intros s1 s2 a _. apply tidy_infer_step.
Qed.
End tidy.

Lemma tidy_add_knowledge h w made fuel cell count st st' :
  tidy h w made st → add_knowledge fuel cell count st = Some st' →
  tidy h w (made ∪ {[cell]}) st'.
Proof.
  intros Hst. unfold add_knowledge.
  destruct (infer_outer _ _ _) as [st1|] eqn:Hout; [|done]. intros [= <-].
  apply tidy_mark_known_safes, tidy_mark_known_mines.
  eapply tidy_infer_outer; [|exact Hout]. clear Hout.
  unfold add_knowledge_head, new_sentence. simpl.
  match goal with |- tidy _ _ _ (if _ then for_set _ _ ?a else _) =>
    assert (Ha : tidy h w (made ∪ {[cell]}) a) end.
  { apply tidy_mark_known_safes, tidy_mark_known_mines.
    destruct Hst as [Hh Hw Hm Hms Hc Hmi]. split; simpl; try done.
    - by rewrite Hm.
    - set_solver.
    - intros s c [Hs| ->%list_elem_of_singleton]%elem_of_app.
      + apply list_elem_of_fmap in Hs as (s0 & -> & Hs0). intros Hx. apply (Hc s0); [done|].
        unfold Sentence.mark_safe in Hx. case_bool_decide; simpl in Hx; set_solver.
      + simpl. intros (_ & Hgrid & _)%elem_of_get_surrounding_cells. by rewrite Hh, Hw in Hgrid. }
  case_bool_decide; [|done]. apply for_set_inv; [done|]. intros c a _. apply tidy_mark_safe.
Qed.

Lemma tidy_init h w : tidy h w ∅ (init h w).
Proof. split; simpl; try done; intros *; by rewrite ?elem_of_nil, ?elem_of_empty. Qed.

Lemma tidy_add_knowledge_seq h w made fuel obs st st' :
  tidy h w made st → add_knowledge_seq fuel obs st = Some st' →
  tidy h w (made ∪ probed obs) st'.
Proof.
  revert made st. induction obs as [|[cell count] obs IH]; intros made st Hst; simpl.
  - intros [= <-]. unfold probed. simpl. by rewrite (right_id_L ∅ (∪)).
  - destruct (add_knowledge _ _ _ _) as [st1|] eqn:Hadd; [|done]. intros Hseq.
    pose proof (IH _ _ (tidy_add_knowledge _ _ _ _ _ _ _ _ Hst Hadd) Hseq) as Hfin.
    unfold probed in *. simpl. by rewrite (assoc_L (∪)) .
Qed.

(** Whatever cells and counts [add_knowledge] is called with, from a new
    engine on, [self.moves_made] is the set of the cells of the calls, and
    each of them is in [self.safes]. *)
Theorem moves_made_are_the_probed_cells h w fuel obs st :
  add_knowledge_seq fuel obs (init h w) = Some st →
  moves_made st = probed obs ∧ moves_made st ⊆ safes st.
Proof.
  intros Hseq. destruct (tidy_add_knowledge_seq h w ∅ fuel obs _ _ (tidy_init h w) Hseq)
    as [_ _ Hm Hms _ _].
  rewrite (left_id_L ∅ (∪)) in Hm, Hms. by rewrite Hm.
Qed.

(** Whatever cells and counts [add_knowledge] is called with, from a new
    engine on, the engine keeps its dimensions, and the cells of its
    sentences and its known mines are cells of the grid. *)
Theorem sentences_and_mines_stay_on_grid h w fuel obs st :
  add_knowledge_seq fuel obs (init h w) = Some st →
  height st = h ∧ width st = w
  ∧ (∀ s c, s ∈ knowledge st → c ∈ Sentence.cells s → on_grid h w c)
  ∧ (∀ c, c ∈ mines st → on_grid h w c).
Proof.
  intros Hseq. by destruct (tidy_add_knowledge_seq h w ∅ fuel obs _ _ (tidy_init h w) Hseq).
Qed.

(** ** The knowledge base is never left empty *)

Lemma copy_kept_infer_step s1 s2 j st :
  knowledge st !! j = Some s2 → copy_kept s1 j (knowledge st) →
  copy_kept s1 (S j) (knowledge (infer_step s1 s2 st)).
Proof.
  intros Hs2 (i & x & Hx & Hxeq & Hcase).
  destruct (infer_step_cases s1 s2 st) as [Hk|[(Hoid & Heq & Hk)|(new & _ & _ & Hk)]];
    rewrite Hk.
  - exists i, x. split; [done|]. split; [done|]. destruct Hcase; [by left|right; lia].
  - assert (Hij : i ≠ j).
    { intros ->. rewrite Hs2 in Hx. injection Hx as ->. destruct Hcase; [congruence|lia]. }
    destruct (list_remove_second s2 x s2 (knowledge st) i j) as (i' & y & Hy & Hycase);
      try done.
    { by eapply eqb_trans. }
    { by apply eqb_spec. }
    exists i', y. split; [done|]. destruct Hycase as [[-> ?]|[-> ?]].
    + split; [done|]. destruct Hcase; [by left|right; lia].
    + split; [by apply eqb_sym|]. right. lia.
  - exists i, x. split; [by apply lookup_app_l_Some|]. split; [done|].
    destruct Hcase; [by left|right; lia].
Qed.

Lemma infer_inner_keeps_a_copy fuel s1 :
  ∀ j st st', copy_kept s1 j (knowledge st) →
    infer_inner fuel s1 j st = Some st' → ∃ j', copy_kept s1 j' (knowledge st').
Proof.
  induction fuel as [|fuel IH]; intros j st st' Hcopy; simpl; [done|].
  destruct (knowledge st !! j) as [s2|] eqn:Hs2; [|intros [= <-]; eauto].
  apply IH. by apply copy_kept_infer_step.
Qed.

Lemma infer_outer_nonempty fuel :
  ∀ i st st', knowledge st ≠ [] → infer_outer fuel i st = Some st' → knowledge st' ≠ [].
Proof.
  induction fuel as [|fuel IH]; intros i st st' Hne; simpl; [done|].
  destruct (knowledge st !! i) as [s1|] eqn:Hs1; [|by intros [= <-]].
  destruct (infer_inner fuel s1 0 st) as [st1|] eqn:Hin; [|done].
  apply IH. destruct (infer_inner_keeps_a_copy fuel s1 0 st st1) as (j' & k & x & Hx & _);
    [|done|].
  - exists i, s1. split; [done|]. split; [by apply eqb_spec|by left].
  - intros Hnil. by rewrite Hnil in Hx.
Qed.

Lemma length_mark_known_mines st : length (knowledge (mark_known_mines st)) = length (knowledge st).
Proof.
  apply (mark_known_mines_from_inv (λ a, length (knowledge a) = length (knowledge st)) (λ _, True));
    [done| |done].
  intros a c _ Ha. simpl. by rewrite length_fmap.
Qed.

Lemma length_mark_known_safes st : length (knowledge (mark_known_safes st)) = length (knowledge st).
Proof.
  apply (mark_known_safes_from_inv (λ a, length (knowledge a) = length (knowledge st)) (λ _, True));
    [done| |done].
  intros a c _ Ha. simpl. by rewrite length_fmap.
Qed.

Lemma length_add_knowledge_head cell count st :
  length (knowledge (add_knowledge_head cell count st)) = S (length (knowledge st)).
Proof.
  unfold add_knowledge_head, new_sentence. simpl.
  match goal with |- length (knowledge (if _ then for_set ?x _ ?a else _)) = _ =>
    assert (Ha : length (knowledge a) = S (length (knowledge st)));
    [|assert (Hb : length (knowledge (for_set x mark_safe a)) = S (length (knowledge st)))] end.
  - rewrite length_mark_known_safes, length_mark_known_mines. simpl.
    rewrite length_app, length_fmap. simpl. lia.
  - by rewrite for_set_mark_safe_knowledge, length_fmap.
  - by case_bool_decide.
Qed.

(** Every call of [add_knowledge] that returns leaves at least one
    sentence in the knowledge base: the passes that remove sentences never
    remove the last one. *)
Theorem add_knowledge_leaves_a_sentence fuel cell count st st' :
  add_knowledge fuel cell count st = Some st' → knowledge st' ≠ [].
Proof.
  unfold add_knowledge. destruct (infer_outer _ _ _) as [st1|] eqn:Hout; [|done].
  intros [= <-]. apply infer_outer_nonempty in Hout.
  - intros Hnil. apply Hout. apply length_zero_iff_nil.
    unfold add_knowledge_tail in Hnil.
    by rewrite <-length_mark_known_mines, <-length_mark_known_safes, Hnil.
  - intros Hnil. pose proof (length_add_knowledge_head cell count st) as Hlen.
    by rewrite Hnil in Hlen.
Qed.

(** ** What one call establishes *)

Lemma grows_mark_known_mines st : grows st (mark_known_mines st).
Proof.
  apply (mark_known_mines_from_inv (grows st) (λ _, True)); [done| |done].
  intros a c _ Ha. etrans; [exact Ha|apply grows_mark_mine].
Qed.

Lemma grows_mark_known_safes st : grows st (mark_known_safes st).
Proof.
  apply (mark_known_safes_from_inv (grows st) (λ _, True)); [done| |done].
  intros a c _ Ha. etrans; [exact Ha|apply grows_mark_safe].
Qed.

Lemma add_knowledge_head_safes cell count st :
  {[cell]} ∪ (if bool_decide (count = 0) then get_surrounding_cells st cell else ∅)
  ⊆ safes (add_knowledge_head cell count st).
Proof.
  unfold add_knowledge_head, new_sentence. simpl.
  match goal with |- _ ⊆ safes (if _ then for_set _ _ ?a else _) =>
    assert (Ha : cell ∈ safes a) end.
  { apply grows_mark_known_safes, grows_mark_known_mines. simpl. set_solver. }
  case_bool_decide; [|set_solver].
  rewrite for_set_mark_safe_safes. set_solver.
Qed.

(** What one call of [add_knowledge] establishes, whatever its arguments:
    the cell is added to the moves made and is known safe, and when the
    count is 0 the cells [get_surrounding_cells] returned for it are known
    safe as well. *)
Theorem add_knowledge_records_the_move fuel cell count st st' :
  add_knowledge fuel cell count st = Some st' →
  moves_made st' = moves_made st ∪ {[cell]}
  ∧ cell ∈ safes st'
  ∧ (count = 0 → get_surrounding_cells st cell ⊆ safes st').
Proof.
  intros Hadd. split.
  - unfold add_knowledge in Hadd.
    destruct (infer_outer _ _ _) as [st1|] eqn:Hout; [|done]. injection Hadd as <-.
    assert (Hhead : moves_made (add_knowledge_head cell count st) = moves_made st ∪ {[cell]}).
    { unfold add_knowledge_head, new_sentence. simpl.
      match goal with |- moves_made (if _ then for_set ?x _ ?a else _) = _ =>
        assert (Ha : moves_made a = moves_made st ∪ {[cell]}) end.
      { unfold mark_known_safes, mark_known_mines.
        apply (mark_known_safes_from_inv (λ a, moves_made a = _) (λ _, True)); [done|done|].
        by apply (mark_known_mines_from_inv (λ a, moves_made a = _) (λ _, True)). }
      case_bool_decide; [|done]. by apply for_set_inv. }
    rewrite <-Hhead. unfold add_knowledge_tail, mark_known_safes, mark_known_mines.
    apply (mark_known_safes_from_inv (λ a, moves_made a = _) (λ _, True)); [done|done|].
    apply (mark_known_mines_from_inv (λ a, moves_made a = _) (λ _, True)); [done|done|].
    eapply (infer_outer_inv (λ a, moves_made a = _) (λ _, True)); [done| |reflexivity|exact Hout].
    intros s1 s2 a _ _ <-. unfold infer_step, new_sentence. simpl.
    destruct (bool_decide _); [done|]. destruct (Sentence.eqb _ _); [done|].
    destruct (bool_decide _); [|done]. by destruct (negb _).
  - assert (Hsafes : safes (add_knowledge_head cell count st) ⊆ safes st').
    { unfold add_knowledge in Hadd.
      destruct (infer_outer _ _ _) as [st1|] eqn:Hout; [|done]. injection Hadd as <-.
      assert (Hg : grows (add_knowledge_head cell count st) (add_knowledge_tail st1)); [|apply Hg].
      etrans; [|apply grows_add_knowledge_tail].
      eapply (infer_outer_inv (grows (add_knowledge_head cell count st)) (λ _, True));
        [done| |done|exact Hout].
      intros s1 s2 a _ _ Ha. etrans; [exact Ha|apply grows_infer_step]. }
    pose proof (add_knowledge_head_safes cell count st) as Hhead.
    split; [set_solver|]. intros ->. rewrite bool_decide_true in Hhead by done. set_solver.
Qed.

(** ** Safe cells stay on the grid when the probed cells are on it *)

Section safes_on_grid.
Variables (h w : Z).

Lemma safes_on_grid_mark_safe c st : on_grid h w c → grounded h w st → grounded h w (mark_safe c st).
Proof.
  intros Hc [[made Ht] Hs]. split; [exists made; by apply tidy_mark_safe|].
  simpl. intros x [?| ->%elem_of_singleton]%elem_of_union; auto.
Qed.

Lemma safes_on_grid_add_knowledge fuel cell count st st' :
  on_grid h w cell → grounded h w st → add_knowledge fuel cell count st = Some st' → grounded h w st'.
Proof.
  intros Hcell [[made Ht] Hs] Hadd.
  split; [eexists; by eapply tidy_add_knowledge|].
  unfold add_knowledge in Hadd.
  destruct (infer_outer _ _ _) as [st1|] eqn:Hout; [|done]. injection Hadd as <-.
  assert (Hmarks : ∀ a, grounded h w a → grounded h w (mark_known_safes (mark_known_mines a))).
  { intros a Ha. unfold mark_known_safes, mark_known_mines.
    apply (mark_known_safes_from_inv (grounded h w) (on_grid h w)).
    - intros b s c [[m Hb] _] Hin Hc. apply (tidy_cells _ _ _ _ Hb s); [done|].
      unfold Sentence.known_safes in Hc. case_bool_decide; set_solver.
    - intros b c. apply safes_on_grid_mark_safe.
    - apply (mark_known_mines_from_inv (grounded h w) (on_grid h w)); [| |done].
      + intros b s c [[m Hb] _] Hin Hc. apply (tidy_cells _ _ _ _ Hb s); [done|].
        unfold Sentence.known_mines in Hc. destruct (_ && _); set_solver.
      + intros b c Hc [[m Hb] Hsb]. split; [exists m; by apply tidy_mark_mine|done]. }
  apply Hmarks.
  eapply (infer_outer_inv (grounded h w) (λ s, ∀ c, c ∈ Sentence.cells s → on_grid h w c));
    [| | |exact Hout].
  - intros a s [[m Ha] _] Hin c. by apply (tidy_cells _ _ _ _ Ha).
  - intros s1 s2 a _ Hs2 [[m Ha] Hsa]. split; [exists m; by apply tidy_infer_step|].
    unfold infer_step, new_sentence. simpl.
    destruct (bool_decide _); [done|]. destruct (Sentence.eqb _ _); [done|].
    destruct (bool_decide _); [|done]. by destruct (negb _).
  - unfold add_knowledge_head, new_sentence. simpl.
    match goal with |- grounded h w (if _ then for_set _ _ ?a else _) => assert (Ha : grounded h w a) end.
    { apply Hmarks. split.
      - exists (made ∪ {[cell]}). destruct Ht as [Hh Hw Hm Hms Hc Hmi]. split; simpl; try done.
        + by rewrite Hm.
        + set_solver.
        + intros s c [Hin| ->%list_elem_of_singleton]%elem_of_app.
          * apply list_elem_of_fmap in Hin as (s0 & -> & Hs0). intros Hx. apply (Hc s0); [done|].
            unfold Sentence.mark_safe in Hx. case_bool_decide; simpl in Hx; set_solver.
          * simpl. intros (_ & Hgrid & _)%elem_of_get_surrounding_cells.
            by rewrite Hh, Hw in Hgrid.
      - simpl. intros x [?| ->%elem_of_singleton]%elem_of_union; auto. }
    case_bool_decide; [|done]. apply for_set_inv; [done|].
    intros c a (_ & Hgrid & _)%elem_of_get_surrounding_cells.
    apply safes_on_grid_mark_safe. destruct Ht as [Hh Hw _ _ _ _]. by rewrite Hh, Hw in Hgrid.
Qed.

Lemma safes_on_grid_seq fuel obs st st' :
  Forall (on_grid h w) (obs.*1) → grounded h w st →
  add_knowledge_seq fuel obs st = Some st' → grounded h w st'.
Proof.
  revert st. induction obs as [|[cell count] obs IH]; intros st Hobs Hst; simpl.
  - by intros [= <-].
  - apply Forall_cons in Hobs as [Hcell Hobs]. simpl in Hcell.
    destruct (add_knowledge _ _ _ _) as [st1|] eqn:Hadd; [|done].
    apply IH; [done|]. by eapply safes_on_grid_add_knowledge.
Qed.

Lemma safes_on_grid_init : grounded h w (init h w).
Proof. split; [exists ∅; apply tidy_init|]. simpl. intros c. by rewrite elem_of_empty. Qed.
End safes_on_grid.

(** When the probed cells are cells of the grid, so are all the cells the
    engine holds to be safe, whatever counts it is told. *)
Theorem safe_cells_stay_on_grid h w fuel obs st :
  Forall (on_grid h w) (obs.*1) →
  add_knowledge_seq fuel obs (init h w) = Some st →
  ∀ c, c ∈ safes st → on_grid h w c.
Proof.
  intros Hobs Hseq.
  by destruct (safes_on_grid_seq h w fuel obs _ _ Hobs (safes_on_grid_init h w) Hseq).
Qed.

(** ** What the moves are worth on true observations *)

Lemma play_probed g probes : probed (observe g <$> probes) = list_to_set probes.
Proof.
  unfold probed. f_equal. rewrite <-list_fmap_compose. rewrite <-(list_fmap_id probes) at 2.
  by apply list_fmap_ext.
Qed.

(** A safe move is safe.  When the engine has been fed the true counts of
    mine-free cells of a board, the move [make_safe_move] returns is a cell
    of the board that holds no mine and has not been probed. *)
Theorem safe_move_is_safe pop fuel g probes st c :
  Forall (safe_probe g) probes →
  play fuel g probes = Some st →
  (make_safe_move pop st).1 = Some c →
  in_bounds g c ∧ Minesweeper.is_mine g c = false ∧ c ∉ probes.
Proof.
  intros Hprobes Hplay. unfold make_safe_move. simpl.
  case_bool_decide as Hsize; [|done]. intros [= Hc].
  assert (Hne : safes st ∖ moves_made st ≠ ∅).
  { intros Hempty. rewrite Hempty, size_empty in Hsize. lia. }
  pose proof (set_pop_elem pop _ Hne) as Hpop. rewrite Hc in Hpop. clear Hc Hsize Hne.
  apply elem_of_difference in Hpop as [Hsafe Hnew].
  split; [|split].
  - assert (Hgrid : Forall (on_grid (Minesweeper.height g) (Minesweeper.width g))
                      ((observe g <$> probes).*1)).
    { apply Forall_fmap, Forall_fmap. eapply Forall_impl; [exact Hprobes|].
      intros x [Hx _]. exact Hx. }
    destruct (safes_on_grid_seq _ _ fuel _ _ _ Hgrid (safes_on_grid_init _ _) Hplay) as [_ Hs].
    by apply Hs.
  - by apply (sound_play g fuel probes st Hprobes Hplay).
  - intros Hin. apply Hnew.
    destruct (tidy_add_knowledge_seq _ _ ∅ fuel _ _ _ (tidy_init _ _) Hplay) as [_ _ -> _ _ _].
    rewrite play_probed. apply elem_of_union. right. by apply elem_of_list_to_set.
Qed.

(** On true observations no cell is held to be both safe and a mine. *)
Theorem known_safe_and_known_mine_never_meet fuel g probes st :
  Forall (safe_probe g) probes →
  play fuel g probes = Some st →
  safes st ## mines st.
Proof.
  intros Hprobes Hplay c Hs Hm.
  destruct (sound_play g fuel probes st Hprobes Hplay) as [_ _ Hsafe Hmine _].
  specialize (Hsafe c Hs). specialize (Hmine c Hm). congruence.
Qed.

(** ** Marking the cells of a set *)

Lemma with_mines_mark_mine (c : Cell) (cells : gset Cell) (s : Sentence.t) :
  c ∉ cells →
  with_mines cells (Sentence.mark_mine c s) = with_mines ({[c]} ∪ cells) s.
Proof.
  intros Hc. unfold Sentence.mark_mine, with_mines.
  case_bool_decide as Hin.
  - apply sentence_eq; cbn [Sentence.oid Sentence.cells Sentence.count].
    + done.
    + set_solver.
    + assert (({[c]} ∪ cells) ∖ Sentence.cells s = {[c]} ∪ cells ∖ Sentence.cells s) as ->
        by set_solver.
      assert (cells ∖ (Sentence.cells s ∪ {[c]}) = cells ∖ Sentence.cells s) as ->
        by set_solver.
      assert (Hd : {[c]} ## cells ∖ Sentence.cells s) by set_solver.
      revert Hd. generalize (cells ∖ Sentence.cells s). intros X Hd.
      rewrite size_union by done. rewrite size_singleton. lia.
  - apply sentence_eq; cbn [Sentence.oid Sentence.cells Sentence.count].
    + done.
    + set_solver.
    + assert (({[c]} ∪ cells) ∖ Sentence.cells s = cells ∖ Sentence.cells s) as ->
        by set_solver.
      done.
Qed.

Lemma foldl_mark_mine_knowledge (l : list Cell) st :
  NoDup l →
  knowledge (foldl (λ acc c, mark_mine c acc) st l) = with_mines (list_to_set l) <$> knowledge st.
Proof.
  intros Hl. revert st. induction Hl as [|c l Hc _ IH]; intros st; simpl.
  - rewrite <-(list_fmap_id (knowledge st)) at 1. apply list_fmap_ext.
    intros _ s _. apply sentence_eq; cbn [id with_mines Sentence.oid Sentence.cells Sentence.count];
      try done; [set_solver|].
    assert ((∅ : gset Cell) ∖ Sentence.cells s = ∅) as -> by set_solver.
    rewrite size_empty. lia.
  - rewrite IH. simpl. rewrite <-list_fmap_compose. apply list_fmap_ext.
    intros _ s _. apply with_mines_mark_mine. by rewrite elem_of_list_to_set.
Qed.

(** Marking the cells of a set.  Marked safe, they are added to
    [self.safes] and removed from every sentence, whose count stays; marked
    as mines, they are added to [self.mines] and to every sentence, whose
    count grows by the number of cells that were not yet in it. *)
Theorem marking_a_set (cells : gset Cell) st :
  (safes (for_set cells mark_safe st) = safes st ∪ cells
   ∧ mines (for_set cells mark_safe st) = mines st
   ∧ knowledge (for_set cells mark_safe st) = without cells <$> knowledge st)
  ∧ (mines (for_set cells mark_mine st) = mines st ∪ cells
     ∧ safes (for_set cells mark_mine st) = safes st
     ∧ knowledge (for_set cells mark_mine st) = with_mines cells <$> knowledge st).
Proof.
  split; split.
  - apply for_set_mark_safe_safes.
  - split; [by apply for_set_inv|apply for_set_mark_safe_knowledge].
  - apply for_set_mark_mine_mines.
  - split; [by apply for_set_inv|]. unfold for_set.
    rewrite foldl_mark_mine_knowledge by apply NoDup_elements.
    by rewrite list_to_set_elements_L.
Qed.

(** ** The board the constructor builds *)

Lemma empty_board_replicate height width :
  Game.empty_board height width
  = replicate (Z.to_nat height) (replicate (Z.to_nat width) false).
Proof.
  unfold Game.empty_board, range.
  assert (Hrow : ∀ (l : list Z) (acc : list bool),
    foldl (λ row _, row ++ [false]) acc l = acc ++ replicate (length l) false).
  { induction l as [|x l IH]; intros acc; simpl; [by rewrite app_nil_r|].
    rewrite IH, <-app_assoc. done. }
  assert (Hboard : ∀ (l : list Z) (row : list bool) (acc : list (list bool)),
    foldl (λ board _, board ++ [row]) acc l = acc ++ replicate (length l) row).
  { induction l as [|x l IH]; intros row acc; simpl; [by rewrite app_nil_r|].
    rewrite IH, <-app_assoc. done. }
  rewrite Hboard, Hrow. simpl. by rewrite !length_seqZ, !Z.sub_0_r.
Qed.

Lemma board_at_set_mine g i j i' j' :
  0 ≤ i → 0 ≤ j → 0 ≤ i' → 0 ≤ j' →
  (Z.to_nat i < length (Minesweeper.board g))%nat →
  Forall (λ row, (Z.to_nat j < length row)%nat) (Minesweeper.board g) →
  Minesweeper.board_at
    (Minesweeper.Build (Minesweeper.height g) (Minesweeper.width g)
       (Game.set_mine i j (Minesweeper.board g))) i' j'
  = if bool_decide ((i', j') = (i, j)) then true else Minesweeper.board_at g i' j'.
Proof.
  intros Hi Hj Hi' Hj' Hrows Hcols. unfold Minesweeper.board_at, Game.set_mine. simpl.
  destruct (Minesweeper.board g !! Z.to_nat i) as [row|] eqn:Hrow.
  2: { apply lookup_ge_None in Hrow. lia. }
  assert (Hlen : (Z.to_nat j < length row)%nat).
  { eapply (proj1 (Forall_forall _ _) Hcols). by eapply list_elem_of_lookup_2. }
  destruct (decide (i' = i)) as [->|Hne].
  - rewrite list_lookup_insert_eq by done.
    destruct (decide (j' = j)) as [->|Hne'].
    + rewrite bool_decide_true by done. by rewrite list_lookup_insert_eq.
    + rewrite bool_decide_false by congruence.
      rewrite list_lookup_insert_ne by lia. by rewrite Hrow.
  - rewrite bool_decide_false by congruence.
    by rewrite list_lookup_insert_ne by lia.
Qed.

Lemma board_ok_add_mine h w i j g :
  on_grid h w (i, j) → board_ok h w g → board_ok h w (Game.add_mine i j g).
Proof.
  intros [Hi Hj] [Hh Hw Hrows Hcols Hmines Hon Hfound]. simpl in Hi, Hj.
  assert (Hset : ∀ c, on_grid h w c →
    Minesweeper.is_mine (Game.grid (Game.add_mine i j g)) c
    = if bool_decide (c = (i, j)) then true else Minesweeper.is_mine (Game.grid g) c).
  { intros [i' j'] [Hi' Hj']. simpl in Hi', Hj'. unfold Minesweeper.is_mine. simpl.
    apply board_at_set_mine; try lia.
    eapply Forall_impl; [exact Hcols|]. simpl. intros row ->. lia. }
  split; simpl; try done.
  - unfold Game.set_mine. destruct (_ !! _); [|done]. by rewrite length_insert.
  - unfold Game.set_mine. destruct (Minesweeper.board (Game.grid g) !! Z.to_nat i) as [row|] eqn:Hrow;
      [|done].
    apply Forall_insert; [done|]. rewrite length_insert.
    eapply (proj1 (Forall_forall _ _) Hcols). by eapply list_elem_of_lookup_2.
  - intros c Hc. rewrite Hset by done. rewrite elem_of_union, elem_of_singleton.
    case_bool_decide as Heq; [tauto|]. rewrite Hmines by done. tauto.
  - intros c [?| ->%elem_of_singleton]%elem_of_union; [by apply Hon|done].
Qed.

Lemma board_ok_empty h w :
  board_ok h w {| Game.grid := Minesweeper.Build h w (Game.empty_board h w);
                  Game.mines := ∅; Game.mines_found := ∅ |}.
Proof.
  split; simpl; try done.
  - by rewrite empty_board_replicate, length_replicate.
  - rewrite empty_board_replicate. apply Forall_replicate. by rewrite length_replicate.
  - intros [i j] [Hi Hj]. simpl in Hi, Hj. rewrite elem_of_empty.
    unfold Minesweeper.is_mine, Minesweeper.board_at. simpl.
    rewrite empty_board_replicate.
    rewrite lookup_replicate_2 by lia. rewrite lookup_replicate_2 by lia. simpl. split; [done|tauto].
Qed.

Lemma place_mines_ok h w count draws :
  ∀ g g', Forall (on_grid h w) draws → board_ok h w g →
    Game.place_mines draws count g = Game.Returned g' →
    board_ok h w g' ∧ Z.of_nat (size (Game.mines g')) = count.
Proof.
  induction draws as [|[i j] draws IH]; intros g g' Hdraws Hg; simpl.
  - case_bool_decide as Hn; [by case_bool_decide|]. intros [= <-]. by split.
  - apply Forall_cons in Hdraws as [Hd Hdraws].
    case_bool_decide as Hn; [|by intros [= <-]].
    case_bool_decide; [|done].
    destruct (negb _); [|by apply IH]. apply IH; [done|]. by apply board_ok_add_mine.
Qed.

Lemma length_cell_list rows cols :
  length (cell_list rows cols) = (length rows * length cols)%nat.
Proof.
  unfold cell_list. induction rows as [|r rows IH]; [done|].
  rewrite bind_cons, length_app, length_fmap, IH. simpl. lia.
Qed.

Lemma size_on_grid (h w : Z) (X : gset Cell) :
  (∀ c, c ∈ X → on_grid h w c) → (size X ≤ Z.to_nat h * Z.to_nat w)%nat.
Proof.
  intros HX.
  etrans; [apply (subseteq_size _ (list_to_set (cell_list (range 0 h) (range 0 w))))|].
  - intros c Hc. apply elem_of_list_to_set, elem_of_cell_list. unfold range.
    rewrite !elem_of_seqZ. destruct (HX c Hc). lia.
  - rewrite size_list_to_set by (apply NoDup_cell_list; apply NoDup_seqZ).
    rewrite length_cell_list. unfold range. rewrite !length_seqZ. lia.
Qed.

(** The board [__init__] returns, when the numbers drawn are in the ranges
    asked of [randrange]: it has [height] rows of [width] entries, the
    entries that are [True] are those of the cells of [self.mines], there
    are as many of them as asked for, which is at most the number of cells,
    [self.mines_found] is empty, and the game is won from the start exactly
    when no mine was asked for. *)
Theorem new_board_holds_the_mines_asked_for h w count draws g :
  Forall (on_grid h w) draws →
  Game.init h w count draws = Game.Returned g →
  board_ok h w g
  ∧ Z.of_nat (size (Game.mines g)) = count
  ∧ 0 ≤ count ≤ Z.of_nat (Z.to_nat h * Z.to_nat w)
  ∧ (Game.won g = true ↔ count = 0).
Proof.
  intros Hdraws Hinit.
  destruct (place_mines_ok h w count draws _ _ Hdraws (board_ok_empty h w) Hinit) as [Hok Hsize].
  split; [done|]. split; [done|].
  pose proof (size_on_grid h w (Game.mines g) (board_mines_on_grid _ _ _ Hok)) as Hle.
  split; [lia|].
  unfold Game.won. rewrite (board_found _ _ _ Hok), bool_decide_eq_true.
  split.
  - intros Heq. rewrite <-Heq, size_empty in Hsize. lia.
  - intros ->. symmetry.
    assert (size (Game.mines g) = 0%nat) as H0%size_empty_iff by lia.
    by apply leibniz_equiv in H0.
Qed.

Lemma place_mines_distinct h w count :
  ∀ draws g, board_ok h w g → NoDup draws → Forall (on_grid h w) draws →
    (∀ c, c ∈ draws → c ∉ Game.mines g) →
    Z.of_nat (size (Game.mines g)) ≤ count ≤ Z.of_nat (size (Game.mines g) + length draws) →
    ∃ g', Game.place_mines draws count g = Game.Returned g'
          ∧ Game.mines g'
            = Game.mines g ∪ list_to_set (take (Z.to_nat count - size (Game.mines g)) draws).
Proof.
  induction draws as [|[i j] draws IH]; intros g Hg Hnd Hon Hnew Hcount; simpl.
  - rewrite bool_decide_false by (simpl in Hcount; lia).
    exists g. split; [done|]. rewrite take_nil. set_solver.
  - apply NoDup_cons in Hnd as [Hij Hnd]. apply Forall_cons in Hon as [Hon_ij Hon].
    case_bool_decide as Hne.
    + rewrite bool_decide_true
        by (rewrite (board_height _ _ _ Hg), (board_width _ _ _ Hg);
            destruct Hon_ij; simpl in *; lia).
      assert (Hfresh : (i, j) ∉ Game.mines g) by (apply Hnew; left).
      assert (Hboard : Minesweeper.board_at (Game.grid g) i j = false).
      { apply not_true_is_false. intros Htrue. apply Hfresh.
        by apply (board_mines _ _ _ Hg (i, j) Hon_ij). }
      rewrite Hboard. simpl.
      assert (Hsize : size (Game.mines (Game.add_mine i j g)) = S (size (Game.mines g))).
      { simpl. rewrite size_union by set_solver. rewrite size_singleton. lia. }
      destruct (IH (Game.add_mine i j g)) as (g' & Hplace & Hmines).
      * by apply board_ok_add_mine.
      * done.
      * done.
      * intros c Hc. simpl. rewrite elem_of_union, elem_of_singleton.
        intros [Hin| ->]; [|done]. eapply Hnew; [|done]. by right.
      * rewrite Hsize. simpl in Hcount. lia.
      * exists g'. split; [done|]. rewrite Hmines, Hsize. simpl.
        assert (Hk : (Z.to_nat count - size (Game.mines g))%nat
                     = S (Z.to_nat count - S (size (Game.mines g)))) by lia.
        rewrite Hk. simpl. set_solver.
    + exists g. split; [done|].
      assert (Hk : (Z.to_nat count - size (Game.mines g))%nat = 0%nat) by lia.
      rewrite Hk. simpl. set_solver.
Qed.

(** When the draws are distinct cells of the grid and at least as many as
    the mines asked for, [__init__] returns, and the mines are the first
    cells drawn. *)
Theorem distinct_draws_become_the_mines h w count draws :
  NoDup draws → Forall (on_grid h w) draws →
  0 ≤ count ≤ Z.of_nat (length draws) →
  ∃ g, Game.init h w count draws = Game.Returned g
       ∧ Game.mines g = list_to_set (take (Z.to_nat count) draws)
       ∧ ∀ c, on_grid h w c →
           (Minesweeper.is_mine (Game.grid g) c = true ↔ c ∈ take (Z.to_nat count) draws).
Proof.
  intros Hnd Hon Hcount.
  destruct (place_mines_distinct h w count draws _ (board_ok_empty h w) Hnd Hon)
    as (g & Hplace & Hmines).
  - simpl. set_solver.
  - cbn [Game.mines]. rewrite size_empty. lia.
  - exists g. cbn [Game.mines] in Hmines. rewrite size_empty, Nat.sub_0_r, (left_id_L ∅ (∪)) in Hmines.
    split; [done|]. split; [done|].
    intros c Hc.
    destruct (place_mines_ok h w count draws _ _ Hon (board_ok_empty h w) Hplace) as [Hok _].
    rewrite (board_mines _ _ _ Hok c Hc), Hmines. apply elem_of_list_to_set.
Qed.

Lemma place_mines_impossible h w count :
  count < 0 ∨ Z.of_nat (Z.to_nat h * Z.to_nat w) < count →
  ∀ draws g, Forall (on_grid h w) draws → board_ok h w g →
    Game.place_mines draws count g
    = if bool_decide (0 < h ∧ 0 < w) then Game.Running else Game.Raised.
Proof.
  intros Hcount. induction draws as [|[i j] draws IH]; intros g Hdraws Hg;
    pose proof (size_on_grid h w (Game.mines g) (board_mines_on_grid _ _ _ Hg)) as Hle;
    simpl; rewrite (bool_decide_true (_ ≠ _)) by lia;
    rewrite (board_height _ _ _ Hg), (board_width _ _ _ Hg).
  - done.
  - apply Forall_cons in Hdraws as [Hd Hdraws].
    rewrite bool_decide_true by (destruct Hd; simpl in *; lia).
    destruct (negb _); rewrite IH; try done.
    + by rewrite bool_decide_true by (destruct Hd; simpl in *; lia).
    + by apply board_ok_add_mine.
    + by rewrite bool_decide_true by (destruct Hd; simpl in *; lia).
Qed.

(** With a negative number of mines, or one above the number of cells,
    [__init__] never returns: on a grid that has a cell its loop goes on
    whatever is drawn and however long, and on a grid without cells
    [randrange] raises [ValueError]. *)
Theorem impossible_mine_count_never_returns h w count draws :
  Forall (on_grid h w) draws →
  count < 0 ∨ Z.of_nat (Z.to_nat h * Z.to_nat w) < count →
  Game.init h w count draws
  = if bool_decide (0 < h ∧ 0 < w) then Game.Running else Game.Raised.
Proof.
  intros Hon Hcount. apply place_mines_impossible; [done|done|apply board_ok_empty].
Qed.

(** On a board that [__init__] has built, [nearby_mines] of a cell, on the
    board or not, is the number of cells of [self.mines] among the eight
    cells around it. *)
Theorem nearby_mines_counts_the_mines_around h w count draws g cell :
  Forall (on_grid h w) draws →
  Game.init h w count draws = Game.Returned g →
  Minesweeper.nearby_mines (Game.grid g) cell
  = Z.of_nat (length (filter (λ p, p ∈ Game.mines g) (around cell))).
Proof.
  intros Hon Hinit.
  destruct (place_mines_ok h w count draws _ _ Hon (board_ok_empty h w) Hinit) as [Hok _].
  rewrite nearby_mines_around. f_equal. f_equal.
  rewrite (board_height _ _ _ Hok), (board_width _ _ _ Hok).
  apply list_filter_iff. intros p. split.
  - intros [Hp Hmine]. by apply (board_mines _ _ _ Hok p Hp).
  - intros Hp. pose proof (board_mines_on_grid _ _ _ Hok p Hp) as Hgrid.
    split; [done|]. by apply (board_mines _ _ _ Hok p Hgrid).
Qed.

(** ** The printed tables *)

Lemma shaped_blank h w : shaped h w (Log.blank h w).
Proof.
  unfold shaped, Log.blank, range. rewrite length_fmap, length_seqZ. split; [lia|].
  apply Forall_fmap, Forall_forall. intros ? _. simpl. by rewrite length_replicate.
Qed.

Lemma get_on_grid h w grid c :
  shaped h w grid → on_grid h w c → Log.get grid c.1 c.2 = shown grid c ∧ is_Some (shown grid c).
Proof.
  intros [Hrows Hcols] [Hy Hx]. unfold Log.get, shown, Log.index.
  rewrite bool_decide_true by lia.
  destruct (grid !! Z.to_nat c.1) as [row|] eqn:Hrow.
  2: { apply lookup_ge_None in Hrow. lia. }
  simpl. rewrite bool_decide_true by lia. split; [done|].
  apply lookup_lt_is_Some.
  rewrite (proj1 (Forall_forall _ _) Hcols row) by (by eapply list_elem_of_lookup_2). lia.
Qed.

Lemma shown_blank h w c : on_grid h w c → shown (Log.blank h w) c = Some Log.Blank.
Proof.
  intros [Hy Hx]. unfold shown, Log.blank, range.
  rewrite list_lookup_fmap, lookup_seqZ_lt by lia. simpl.
  by rewrite lookup_replicate_2 by lia.
Qed.

Lemma put_on_grid h w grid c e :
  shaped h w grid → on_grid h w c →
  ∃ grid', Log.put grid c.1 c.2 e = Some grid' ∧ shaped h w grid'
    ∧ ∀ p, on_grid h w p →
        shown grid' p = if bool_decide (p = c) then Some e else shown grid p.
Proof.
  intros [Hrows Hcols] [Hy Hx]. unfold Log.put, Log.index, Log.store.
  rewrite bool_decide_true by lia.
  destruct (grid !! Z.to_nat c.1) as [row|] eqn:Hrow.
  2: { apply lookup_ge_None in Hrow. lia. }
  assert (Hlen : length row = Z.to_nat w).
  { apply (proj1 (Forall_forall _ _) Hcols row). by eapply list_elem_of_lookup_2. }
  simpl. rewrite bool_decide_true by lia. simpl. rewrite bool_decide_true by lia.
  eexists. split; [done|]. split.
  - split; [by rewrite length_insert|].
    apply Forall_insert; [done|]. by rewrite length_insert.
  - intros [y x] [Hpy Hpx]. unfold shown. destruct c as [y0 x0]. simpl in *.
    destruct (decide (y = y0)) as [->|Hyy].
    + rewrite list_lookup_insert_eq by lia.
      destruct (decide (x = x0)) as [->|Hxx].
      * rewrite list_lookup_insert_eq by lia. by rewrite bool_decide_true.
      * rewrite list_lookup_insert_ne by lia. rewrite bool_decide_false by congruence.
        by rewrite Hrow.
    + rewrite list_lookup_insert_ne by lia. by rewrite bool_decide_false by congruence.
Qed.

Lemma for_each_app {A S : Type} (l1 l2 : list A) (body : A → S → option S) s :
  Log.for_each (l1 ++ l2) body s
  = match Log.for_each l1 body s with Some s' => Log.for_each l2 body s' | None => None end.
Proof.
  revert s. induction l1 as [|x l1 IH]; intros s; simpl; [done|].
  by destruct (body x s).
Qed.

Lemma for_each_cell_list {S : Type} rows cols (body : Cell → S → option S) s :
  Log.for_each rows (λ y, Log.for_each cols (λ x, body (y, x))) s
  = Log.for_each (cell_list rows cols) body s.
Proof.
  unfold cell_list. revert s. induction rows as [|y rows IH]; intros s; [done|].
  rewrite bind_cons, for_each_app. simpl.
  assert (Hrow : ∀ s, Log.for_each cols (λ x, body (y, x)) s
                      = Log.for_each (pair y <$> cols) body s).
  { clear. induction cols as [|x cols IH]; intros s; simpl; [done|].
    destruct (body (y, x) s); [apply IH|done]. }
  rewrite Hrow. destruct (Log.for_each _ body s); [apply IH|done].
Qed.

Lemma for_each_inv {A S : Type} (I : S → Prop) (l : list A) (body : A → S → option S) s :
  I s →
  (∀ x s, x ∈ l → I s → ∃ s', body x s = Some s' ∧ I s') →
  ∃ s', Log.for_each l body s = Some s' ∧ I s'.
Proof.
  revert s. induction l as [|x l IH]; intros s Hs Hbody; simpl; [by exists s|].
  destruct (Hbody x s) as (s1 & -> & Hs1); [left|done|].
  apply IH; [done|]. intros y s2 Hy. apply Hbody. by right.
Qed.

Lemma log_minefield_shaped st grid :
  shaped (MinesweeperAI.height st) (MinesweeperAI.width st) grid →
  Log.log_minefield st grid = Some grid.
Proof.
  intros Hshape. unfold Log.log_minefield. apply mapM_Some.
  apply Forall2_same_length_lookup. unfold range.
  rewrite length_seqZ. split; [destruct Hshape; lia|].
  intros i y row Hy Hrow. apply lookup_seqZ in Hy as [-> Hi].
  apply mapM_Some. apply Forall2_same_length_lookup. rewrite length_seqZ.
  assert (Hlen : length row = Z.to_nat (MinesweeperAI.width st)).
  { apply (proj1 (Forall_forall _ _) (proj2 Hshape) row). by eapply list_elem_of_lookup_2. }
  split; [lia|].
  intros j x e Hx He. apply lookup_seqZ in Hx as [-> Hj].
  destruct (get_on_grid _ _ grid (0 + Z.of_nat i, 0 + Z.of_nat j) Hshape) as [Hget _].
  { split; simpl; lia. }
  simpl in Hget. rewrite Hget. unfold shown. simpl.
  assert (Z.to_nat (0 + Z.of_nat i) = i) as -> by lia.
  assert (Z.to_nat (0 + Z.of_nat j) = j) as -> by lia.
  by rewrite Hrow.
Qed.

Lemma paint_spec st (mark : Cell → option Log.entry) :
  ∃ grid, Log.paint st mark = Some grid
    ∧ shaped (MinesweeperAI.height st) (MinesweeperAI.width st) grid
    ∧ ∀ c, on_grid (MinesweeperAI.height st) (MinesweeperAI.width st) c →
        shown grid c = Some (default Log.Blank (mark c)).
Proof.
  unfold Log.paint.
  rewrite (for_each_cell_list _ _
    (λ c grid, match mark c with Some e => Log.put grid c.1 c.2 e | None => Some grid end)).
  set (h := MinesweeperAI.height st). set (w := MinesweeperAI.width st).
  assert (Hgen : ∀ l grid, shaped h w grid → Forall (on_grid h w) l →
    ∃ grid', Log.for_each l
        (λ c grid, match mark c with Some e => Log.put grid c.1 c.2 e | None => Some grid end)
        grid = Some grid'
      ∧ shaped h w grid'
      ∧ ∀ c, on_grid h w c →
          shown grid' c = if bool_decide (c ∈ l)
                          then match mark c with Some e => Some e | None => shown grid c end
                          else shown grid c).
  { induction l as [|c0 l IH]; intros grid Hshape Hl.
    - exists grid. split; [done|]. split; [done|]. intros c _.
      by rewrite bool_decide_false by apply not_elem_of_nil.
    - apply Forall_cons in Hl as [Hc0 Hl]. simpl.
      destruct (mark c0) as [e|] eqn:Hmark.
      + destruct (put_on_grid h w grid c0 e Hshape Hc0) as (grid1 & -> & Hshape1 & Hput).
        destruct (IH grid1 Hshape1 Hl) as (grid' & Hfor & Hshape' & Hshown).
        exists grid'. split; [done|]. split; [done|]. intros c Hc.
        rewrite Hshown, Hput by done.
        destruct (decide (c = c0)) as [->|Hne]; rewrite ?Hmark;
          repeat case_bool_decide; try done; exfalso; set_solver.
      + destruct (IH grid Hshape Hl) as (grid' & Hfor & Hshape' & Hshown).
        exists grid'. split; [done|]. split; [done|]. intros c Hc.
        rewrite Hshown by done.
        destruct (decide (c = c0)) as [->|Hne]; rewrite ?Hmark;
          repeat case_bool_decide; try done; exfalso; set_solver. }
  destruct (Hgen (cell_list (range 0 h) (range 0 w)) (Log.blank h w)) as (grid & Hfor & Hshape & Hshown).
  - apply shaped_blank.
  - apply Forall_forall. intros c Hc. apply elem_of_cell_list in Hc. unfold range in Hc.
    rewrite !elem_of_seqZ in Hc. split; lia.
  - exists grid. split; [done|]. split; [done|]. intros c Hc. rewrite Hshown by done.
    rewrite bool_decide_true.
    + rewrite (shown_blank h w c Hc). by destruct (mark c).
    + apply elem_of_cell_list. unfold range. rewrite !elem_of_seqZ. destruct Hc. lia.
Qed.

Lemma marks_write h w e : e ≠ Log.Blank → marks h w (Log.write e).
Proof.
  intros He c0 grid Hshape Hc0. unfold Log.write.
  destruct (put_on_grid h w grid c0 e Hshape Hc0) as (grid' & -> & Hshape' & Hput).
  exists grid'. split; [done|]. split; [done|]. intros c Hc. rewrite Hput by done.
  case_bool_decide; [|tauto]. split; [congruence|tauto].
Qed.

Lemma marks_write_count h w count : marks h w (Log.write_count count).
Proof.
  intros c0 grid Hshape Hc0. unfold Log.write_count.
  destruct (get_on_grid h w grid c0 Hshape Hc0) as [-> [e He]]. rewrite He.
  destruct e; simpl;
    try (exists grid; split; [done|]; split; [done|]; intros c Hc;
         split; [intros Hb; split; [done|]; intros ->; congruence|tauto]).
  destruct (put_on_grid h w grid c0 (Log.Number count) Hshape Hc0)
    as (grid' & -> & Hshape' & Hput).
  exists grid'. split; [done|]. split; [done|]. intros c Hc. rewrite Hput by done.
  case_bool_decide; [|tauto]. split; [congruence|tauto].
Qed.

Lemma for_each_marks h w body (l : list Cell) :
  marks h w body → Forall (on_grid h w) l →
  ∀ grid, shaped h w grid →
    ∃ grid', Log.for_each l body grid = Some grid' ∧ shaped h w grid'
      ∧ ∀ c, on_grid h w c →
          (shown grid' c = Some Log.Blank ↔ shown grid c = Some Log.Blank ∧ c ∉ l).
Proof.
  intros Hbody. induction l as [|c0 l IH]; intros Hl grid Hshape.
  - exists grid. split; [done|]. split; [done|]. intros c _. rewrite elem_of_nil. tauto.
  - apply Forall_cons in Hl as [Hc0 Hl]. simpl.
    destruct (Hbody c0 grid Hshape Hc0) as (grid1 & -> & Hshape1 & Hb1).
    destruct (IH Hl grid1 Hshape1) as (grid' & Hfor & Hshape' & Hb').
    exists grid'. split; [done|]. split; [done|]. intros c Hc.
    rewrite Hb', Hb1, not_elem_of_cons by done. tauto.
Qed.

Lemma log_sentence_marks h w s grid :
  (∀ c, c ∈ Sentence.cells s → on_grid h w c) → shaped h w grid →
  ∃ grid', Log.log_sentence s grid = Some grid' ∧ shaped h w grid'
    ∧ ∀ c, on_grid h w c →
        (shown grid' c = Some Log.Blank ↔ shown grid c = Some Log.Blank ∧ c ∉ Sentence.cells s).
Proof.
  intros Hcells Hshape. unfold Log.log_sentence.
  assert (Hsafes : Sentence.known_safes s ⊆ Sentence.cells s).
  { unfold Sentence.known_safes. case_bool_decide; set_solver. }
  assert (Hmines : Sentence.known_mines s ⊆ Sentence.cells s).
  { unfold Sentence.known_mines. destruct (_ && _); set_solver. }
  assert (Hon : ∀ X : gset Cell, X ⊆ Sentence.cells s → Forall (on_grid h w) (elements X)).
  { intros X HX. apply Forall_forall. intros c Hc%elem_of_elements. apply Hcells. set_solver. }
  destruct (for_each_marks h w _ _ (marks_write_count h w (Sentence.count s))
              (Hon _ (reflexivity _)) grid Hshape) as (grid1 & -> & Hshape1 & Hb1).
  destruct (for_each_marks h w _ _ (marks_write h w Log.KnownSafe ltac:(done))
              (Hon _ Hsafes) grid1 Hshape1) as (grid2 & -> & Hshape2 & Hb2).
  destruct (for_each_marks h w _ _ (marks_write h w Log.KnownMine ltac:(done))
              (Hon _ Hmines) grid2 Hshape2) as (grid3 & -> & Hshape3 & Hb3).
  exists grid3. split; [done|]. split; [done|]. intros c Hc.
  rewrite Hb3, Hb2, Hb1 by done. rewrite !elem_of_elements. set_solver.
Qed.

Lemma log_knowledge_marks h w (k : list Sentence.t) :
  (∀ s c, s ∈ k → c ∈ Sentence.cells s → on_grid h w c) →
  ∀ grid, shaped h w grid →
    ∃ grid', Log.for_each k Log.log_sentence grid = Some grid' ∧ shaped h w grid'
      ∧ ∀ c, on_grid h w c →
          (shown grid' c = Some Log.Blank
           ↔ shown grid c = Some Log.Blank ∧ ∀ s, s ∈ k → c ∉ Sentence.cells s).
Proof.
  induction k as [|s k IH]; intros Hk grid Hshape.
  - exists grid. split; [done|]. split; [done|]. intros c _. split; [|tauto].
    intros Hb. split; [done|]. intros s Hs. by apply elem_of_nil in Hs.
  - simpl.
    destruct (log_sentence_marks h w s grid) as (grid1 & -> & Hshape1 & Hb1); [|done|].
    { intros c. apply Hk. left. }
    destruct (IH (λ s' c Hs', Hk s' c (list_elem_of_further _ _ _ Hs')) grid1 Hshape1)
      as (grid' & Hfor & Hshape' & Hb').
    exists grid'. split; [done|]. split; [done|]. intros c Hc.
    rewrite Hb', Hb1 by done. split.
    + intros [[Hb Hs] Hall]. split; [done|].
      intros s' [->|Hs']%elem_of_cons; [done|by apply Hall].
    + intros [Hb Hall]. split; [split; [done|]|].
      * apply Hall. left.
      * intros s' Hs'. apply Hall. by right.
Qed.

(** [log_cells] raises no [IndexError], whatever the set it is given; the
    table it prints has the dimensions of the grid, shows the symbol at the
    cells of the set and ['-'] at the others, and ignores the cells of the
    set outside the grid. *)
Theorem log_cells_marks_the_cells_on_the_board (st : MinesweeperAI.t) (cells : gset Cell) :
  ∃ table, Log.log_cells st cells = Some table
    ∧ shaped (MinesweeperAI.height st) (MinesweeperAI.width st) table
    ∧ ∀ c, on_grid (MinesweeperAI.height st) (MinesweeperAI.width st) c →
        shown table c = Some (if bool_decide (c ∈ cells) then Log.Symbol else Log.Blank).
Proof.
  unfold Log.log_cells.
  destruct (paint_spec st (λ cell, if bool_decide (cell ∈ cells) then Some Log.Symbol else None))
    as (grid & -> & Hshape & Hshown).
  rewrite log_minefield_shaped by done.
  exists grid. split; [done|]. split; [done|]. intros c Hc. rewrite Hshown by done.
  by case_bool_decide.
Qed.

(** The table [log_data] prints for an engine that was built by calls of
    [add_knowledge], whatever their arguments: ["M"] at the known mines,
    ["S"] at the other known safe cells, ['-'] elsewhere.  The mark ["?"] of
    a move that is neither is never shown, since every move made is known
    safe. *)
Theorem log_data_never_shows_a_question_mark h w fuel obs st :
  MinesweeperAI.add_knowledge_seq fuel obs (MinesweeperAI.init h w) = Some st →
  ∃ table, Log.log_data st = Some table
    ∧ shaped h w table
    ∧ ∀ c, on_grid h w c →
        shown table c
        = Some (if bool_decide (c ∈ MinesweeperAI.mines st) then Log.KnownMine
                else if bool_decide (c ∈ MinesweeperAI.safes st) then Log.KnownSafe
                else Log.Blank).
Proof.
  intros Hseq.
  destruct (tidy_add_knowledge_seq h w ∅ fuel obs _ _ (tidy_init h w) Hseq)
    as [Hh Hw Hm Hms _ _].
  unfold Log.log_data.
  match goal with |- context [Log.paint st ?m] => destruct (paint_spec st m)
    as (grid & -> & Hshape & Hshown) end.
  rewrite log_minefield_shaped by done. rewrite Hh, Hw in Hshape, Hshown.
  exists grid. split; [done|]. split; [done|]. intros c Hc. rewrite Hshown by done.
  repeat case_bool_decide; try done. exfalso. set_solver.
Qed.

(** [log_knowledge], which [add_knowledge] calls before it returns, raises
    no [IndexError] on an engine that was built by calls of [add_knowledge],
    whatever their arguments; the table it prints has the dimensions of the
    grid and shows ['-'] exactly at the cells that are in no sentence. *)
Theorem log_knowledge_never_fails h w fuel obs st :
  MinesweeperAI.add_knowledge_seq fuel obs (MinesweeperAI.init h w) = Some st →
  ∃ table, Log.log_knowledge st = Some table
    ∧ shaped h w table
    ∧ ∀ c, on_grid h w c →
        (shown table c = Some Log.Blank
         ↔ ∀ s, s ∈ MinesweeperAI.knowledge st → c ∉ Sentence.cells s).
Proof.
  intros Hseq.
  destruct (tidy_add_knowledge_seq h w ∅ fuel obs _ _ (tidy_init h w) Hseq)
    as [Hh Hw _ _ Hcells _].
  unfold Log.log_knowledge. rewrite Hh, Hw.
  destruct (log_knowledge_marks h w (MinesweeperAI.knowledge st) Hcells _ (shaped_blank h w))
    as (grid & -> & Hshape & Hb).
  rewrite log_minefield_shaped by (by rewrite Hh, Hw).
  exists grid. split; [done|]. split; [done|]. intros c Hc.
  rewrite Hb by done. rewrite (shown_blank h w c Hc). tauto.
Qed.


(** ** The theorems at concrete inputs *)

(** C5 at the one-row board: the second observation keeps what the first
    one established. *)
Lemma known_sets_never_shrink_witness :
  ∃ st st', play 20 grid_1x4 [(0, 0)] = Some st
    ∧ add_knowledge_seq 20 [((0, 2), 1)] st = Some st'
    ∧ safes st ⊆ safes st' ∧ mines st ⊆ mines st'.
Proof.
  do 2 eexists. split; [vm_compute; reflexivity|]. split; [vm_compute; reflexivity|].
  apply (known_sets_never_shrink 20 [((0, 2), 1)]). vm_compute. reflexivity.
Defined.

(** C7 at the three-by-three board. *)
Lemma counts_stay_in_range_witness :
  ∃ st, play 20 grid_3x3 [(2, 2); (1, 1); (0, 1)] = Some st
    ∧ ∀ s, s ∈ knowledge st → 0 ≤ Sentence.count s ≤ Z.of_nat (size (Sentence.cells s)).
Proof.
  eexists. split; [vm_compute; reflexivity|].
  apply (counts_stay_in_range 20 grid_3x3 [(2, 2); (1, 1); (0, 1)]).
  - repeat constructor; simpl; lia.
  - vm_compute. reflexivity.
Defined.


(** C4 at the first probe of the scenario of the three-by-three board. *)
Lemma first_zero_count_leaves_empty_sentence_witness :
  ∃ st', add_knowledge 3 (2, 2) 0 (init 3 3) = Some st'
    ∧ contents <$> knowledge st' = [(∅, 0)].
Proof. apply (first_zero_count_leaves_empty_sentence 0 (2, 2) (init 3 3)). reflexivity. Defined.

(** C2 at the engine that holds the sentence [set() = 1]. *)
Lemma mark_mine_adds_cell_witness :
  mines (mark_mine (0, 0) stuck_start) = mines stuck_start ∪ {[(0, 0)]}
  ∧ Forall2 (λ s s',
        (0, 0) ∈ Sentence.cells s'
        ∧ ((0, 0) ∈ Sentence.cells s → s' = s)
        ∧ ((0, 0) ∉ Sentence.cells s →
           Sentence.cells s' = Sentence.cells s ∪ {[(0, 0)]}
           ∧ Sentence.count s' = Sentence.count s + 1))
      (knowledge stuck_start) (knowledge (mark_mine (0, 0) stuck_start)).
Proof. apply (mark_mine_adds_cell (0, 0) stuck_start). Defined.

(** C9 with [pop_first] for [set.pop()]. *)
Lemma make_safe_move_correct_witness :
  (make_safe_move pop_first stuck_start).2 = stuck_start
  ∧ (safes stuck_start ∖ moves_made stuck_start ≠ ∅ →
     ∃ c, (make_safe_move pop_first stuck_start).1 = Some c
          ∧ c ∈ safes stuck_start ∧ c ∉ moves_made stuck_start)
  ∧ (safes stuck_start ∖ moves_made stuck_start = ∅ →
     (make_safe_move pop_first stuck_start).1 = None).
Proof. apply (make_safe_move_correct pop_first stuck_start). Defined.

(** C10 with [pop_first] for [set.pop()]: three calls, three times the same
    cell. *)
Lemma make_random_move_repeats_witness :
  random_moves pop_first 3 (init 1 2)
  = replicate 3 (Some (set_pop pop_first {[(0, 0); (0, 1)]})).
Proof. apply (make_random_move_repeats pop_first 3). Defined.


Lemma zero_count_cells_become_safe_witness :
  Sentence.cells zero_sentence ⊆ safes (mark_known_safes one_zero).
Proof.
  apply (zero_count_cells_become_safe one_zero zero_sentence).
  - left.
  - reflexivity.
Defined.

Lemma full_count_cells_become_mines_witness :
  Sentence.cells full_sentence ⊆ mines (mark_known_mines one_full).
Proof.
  apply (full_count_cells_become_mines one_full full_sentence).
  - left.
  - vm_compute. reflexivity.
  - reflexivity.
Defined.

Lemma add_knowledge_result_unique_witness :
  add_knowledge 3 (0, 0) 1 (init 1 1) = Some stuck_start
  ∧ add_knowledge 7 (0, 0) 1 (init 1 1) = Some stuck_start
  ∧ stuck_start = stuck_start.
Proof.
  split; [vm_compute; reflexivity|]. split; [vm_compute; reflexivity|].
  apply (add_knowledge_result_unique 3 7 (0, 0) 1 (init 1 1)); vm_compute; reflexivity.
Defined.



(** The moves of an engine that was told about two cells of the one-row
    board and about a cell outside of it. *)
Lemma moves_made_are_the_probed_cells_witness :
  ∃ st, add_knowledge_seq 20 [((0, 0), 1); ((0, -1), 0); ((0, 2), 1)] (init 1 4) = Some st
    ∧ moves_made st = probed [((0, 0), 1); ((0, -1), 0); ((0, 2), 1)]
    ∧ moves_made st ⊆ safes st.
Proof.
  eexists. split; [vm_compute; reflexivity|].
  apply (moves_made_are_the_probed_cells 1 4 20 [((0, 0), 1); ((0, -1), 0); ((0, 2), 1)]).
  vm_compute. reflexivity.
Defined.

Lemma sentences_and_mines_stay_on_grid_witness :
  ∃ st, add_knowledge_seq 20 [((0, 0), 1); ((0, -1), 0); ((0, 2), 1)] (init 1 4) = Some st
    ∧ height st = 1 ∧ width st = 4
    ∧ (∀ s c, s ∈ knowledge st → c ∈ Sentence.cells s → on_grid 1 4 c)
    ∧ (∀ c, c ∈ mines st → on_grid 1 4 c).
Proof.
  eexists. split; [vm_compute; reflexivity|].
  apply (sentences_and_mines_stay_on_grid 1 4 20 [((0, 0), 1); ((0, -1), 0); ((0, 2), 1)]).
  vm_compute. reflexivity.
Defined.

Lemma add_knowledge_leaves_a_sentence_witness :
  ∃ st', add_knowledge 3 (2, 2) 0 (init 3 3) = Some st' ∧ knowledge st' ≠ [].
Proof.
  eexists. split; [vm_compute; reflexivity|].
  apply (add_knowledge_leaves_a_sentence 3 (2, 2) 0 (init 3 3)). vm_compute. reflexivity.
Defined.

Lemma add_knowledge_records_the_move_witness :
  ∃ st', add_knowledge 3 (2, 2) 0 (init 3 3) = Some st'
    ∧ moves_made st' = moves_made (init 3 3) ∪ {[(2, 2)]}
    ∧ (2, 2) ∈ safes st'
    ∧ (0 = 0 → get_surrounding_cells (init 3 3) (2, 2) ⊆ safes st').
Proof.
  eexists. split; [vm_compute; reflexivity|].
  apply (add_knowledge_records_the_move 3 (2, 2) 0 (init 3 3)). vm_compute. reflexivity.
Defined.

Lemma safe_cells_stay_on_grid_witness :
  ∃ st, add_knowledge_seq 20 [((0, 3), 0); ((0, 0), 1)] (init 1 4) = Some st
    ∧ ∀ c, c ∈ safes st → on_grid 1 4 c.
Proof.
  eexists. split; [vm_compute; reflexivity|].
  apply (safe_cells_stay_on_grid 1 4 20 [((0, 3), 0); ((0, 0), 1)]).
  - repeat constructor; simpl; lia.
  - vm_compute. reflexivity.
Defined.

Lemma safe_move_is_safe_witness :
  ∃ st c, play 20 grid_3x3 [(2, 2)] = Some st
    ∧ (make_safe_move pop_first st).1 = Some c
    ∧ in_bounds grid_3x3 c ∧ Minesweeper.is_mine grid_3x3 c = false ∧ c ∉ [(2, 2)].
Proof.
  do 2 eexists. split; [vm_compute; reflexivity|]. split; [vm_compute; reflexivity|].
  eapply (safe_move_is_safe pop_first 20 grid_3x3 [(2, 2)]).
  - repeat constructor; simpl; lia.
  - vm_compute. reflexivity.
  - vm_compute. reflexivity.
Defined.

Lemma known_safe_and_known_mine_never_meet_witness :
  ∃ st, play 20 grid_3x3 [(2, 2); (1, 1); (0, 1)] = Some st ∧ safes st ## mines st.
Proof.
  eexists. split; [vm_compute; reflexivity|].
  apply (known_safe_and_known_mine_never_meet 20 grid_3x3 [(2, 2); (1, 1); (0, 1)]).
  - repeat constructor; simpl; lia.
  - vm_compute. reflexivity.
Defined.

(** A board of two rows and two columns with two mines; the second draw
    repeats the first. *)
Lemma new_board_holds_the_mines_asked_for_witness :
  ∃ g, Game.init 2 2 2 [(0, 0); (0, 0); (1, 1)] = Game.Returned g
    ∧ board_ok 2 2 g
    ∧ Z.of_nat (size (Game.mines g)) = 2
    ∧ 0 ≤ 2 ≤ Z.of_nat (Z.to_nat 2 * Z.to_nat 2)
    ∧ (Game.won g = true ↔ 2 = 0).
Proof.
  eexists. split; [vm_compute; reflexivity|].
  apply (new_board_holds_the_mines_asked_for 2 2 2 [(0, 0); (0, 0); (1, 1)]).
  - repeat constructor; simpl; lia.
  - vm_compute. reflexivity.
Defined.

Lemma distinct_draws_become_the_mines_witness :
  ∃ g, Game.init 2 2 2 [(0, 1); (1, 0); (1, 1)] = Game.Returned g
    ∧ Game.mines g = list_to_set (take (Z.to_nat 2) [(0, 1); (1, 0); (1, 1)])
    ∧ ∀ c, on_grid 2 2 c →
        (Minesweeper.is_mine (Game.grid g) c = true
         ↔ c ∈ take (Z.to_nat 2) [(0, 1); (1, 0); (1, 1)]).
Proof.
  apply (distinct_draws_become_the_mines 2 2 2 [(0, 1); (1, 0); (1, 1)]).
  - apply (bool_decide_unpack _). vm_compute. reflexivity.
  - repeat constructor; simpl; lia.
  - simpl. lia.
Defined.

Lemma impossible_mine_count_never_returns_witness :
  Game.init 1 2 3 [(0, 0); (0, 1); (0, 0)]
  = if bool_decide (0 < 1 ∧ 0 < 2) then Game.Running else Game.Raised.
Proof.
  apply (impossible_mine_count_never_returns 1 2 3 [(0, 0); (0, 1); (0, 0)]).
  - repeat constructor; simpl; lia.
  - right. simpl. lia.
Defined.

Lemma nearby_mines_counts_the_mines_around_witness :
  ∃ g, Game.init 2 2 1 [(0, 0)] = Game.Returned g
    ∧ Minesweeper.nearby_mines (Game.grid g) (1, 1)
      = Z.of_nat (length (filter (λ p, p ∈ Game.mines g) (around (1, 1)))).
Proof.
  eexists. split; [vm_compute; reflexivity|].
  apply (nearby_mines_counts_the_mines_around 2 2 1 [(0, 0)]).
  - repeat constructor; simpl; lia.
  - vm_compute. reflexivity.
Defined.

Lemma log_data_never_shows_a_question_mark_witness :
  ∃ st, add_knowledge_seq 20 [((0, 0), 1); ((0, 2), 1)] (init 1 4) = Some st
    ∧ ∃ table, Log.log_data st = Some table
        ∧ shaped 1 4 table
        ∧ ∀ c, on_grid 1 4 c →
            shown table c
            = Some (if bool_decide (c ∈ mines st) then Log.KnownMine
                    else if bool_decide (c ∈ safes st) then Log.KnownSafe
                    else Log.Blank).
Proof.
  eexists. split; [vm_compute; reflexivity|].
  apply (log_data_never_shows_a_question_mark 1 4 20 [((0, 0), 1); ((0, 2), 1)]).
  vm_compute. reflexivity.
Defined.

Lemma log_knowledge_never_fails_witness :
  ∃ st, add_knowledge_seq 20 [((0, 0), 1); ((0, -1), 0); ((0, 2), 1)] (init 1 4) = Some st
    ∧ ∃ table, Log.log_knowledge st = Some table
        ∧ shaped 1 4 table
        ∧ ∀ c, on_grid 1 4 c →
            (shown table c = Some Log.Blank
             ↔ ∀ s, s ∈ knowledge st → c ∉ Sentence.cells s).
Proof.
  eexists. split; [vm_compute; reflexivity|].
  apply (log_knowledge_never_fails 1 4 20 [((0, 0), 1); ((0, -1), 0); ((0, 2), 1)]).
  vm_compute. reflexivity.
Defined.
